(** * The output writer of the Civo CLI ([utility/output_writer.go])

    A shallow embedding of the row accumulator [OutputWriter], of its five
    renderers and of the header helpers, together with the properties of
    the accumulation model and of the custom-template renderer.

    Go strings are byte strings: they are modelled by [string] (a list of
    8-bit characters), [len] is [String.length].  Slices are modelled by
    lists; an index out of range is a run-time panic and is modelled as
    such.  Standard output is the list of the texts printed by the
    successive calls of [fmt.Println] / [fmt.Printf], without the final
    newline of each call.

    Rows are modelled by value.  In Go the row that the flush appends
    shares its array with [TempValues] until [StartLine] allocates the next
    buffer; the sequences of calls considered here (calls that build the
    accumulator, then renderers) never write to [TempValues] in between, so
    that nothing is lost. *)

From Stdlib Require Import ZArith Ascii String DecimalString.
From stdpp Require Import base option list sorting gmap strings.

Set Warnings "-clear-no-such-hyp".

(** ** Byte strings: the functions of Go's [strings] package that the
       writer calls *)

Module GoStrings.

(** [s[i:]]: the slice without its first [i] bytes. *)
Fixpoint slice_from (i : nat) (s : string) : string :=
  match i, s with
  | 0, _ => s
  | S _, EmptyString => EmptyString
  | S i', String _ s' => slice_from i' s'
  end.

(** [s[:i]]: the first [i] bytes. *)
Fixpoint slice_to (i : nat) (s : string) : string :=
  match i, s with
  | 0, _ => EmptyString
  | S _, EmptyString => EmptyString
  | S i', String c s' => String c (slice_to i' s')
  end.

(** [strings.HasPrefix(s, p)]. *)
Fixpoint HasPrefix (s p : string) : bool :=
  match p, s with
  | EmptyString, _ => true
  | String _ _, EmptyString => false
  | String a p', String b s' => if Ascii.eqb a b then HasPrefix s' p' else false
  end.

(** [strings.Index(s, sub)]: the offset of the leftmost occurrence of [sub]
    in [s]; [None] stands for Go's [-1]. *)
Fixpoint Index (s sub : string) : option nat :=
  if HasPrefix s sub then Some 0
  else match s with
       | EmptyString => None
       | String _ s' => S <$> Index s' sub
       end.

(** [strings.Contains(s, sub)] is [Index(s, sub) >= 0]. *)
Definition Contains (s sub : string) : bool :=
  match Index s sub with Some _ => true | None => false end.

(** [strings.Replace(s, old, new, 1)] for the non-empty [old] the writer
    passes: the leftmost occurrence is replaced. *)
Definition ReplaceFirst (s old new : string) : string :=
  match Index s old with
  | None => s
  | Some j => slice_to j s +:+ new +:+ slice_from (j + String.length old) s
  end.

(** [strings.Replace(s, old, new, -1)] for a non-empty [old]: every
    non-overlapping occurrence, scanning from the left, is replaced.
    [skip] counts the bytes of the occurrence just replaced that are still
    to be passed over. *)
Fixpoint ReplaceAll_go (skip : nat) (s old new : string) : string :=
  match s with
  | EmptyString => EmptyString
  | String c s' =>
      match skip with
      | S k => ReplaceAll_go k s' old new
      | 0 => if HasPrefix s old
             then new +:+ ReplaceAll_go (String.length old - 1) s' old new
             else String c (ReplaceAll_go 0 s' old new)
      end
  end.

Definition ReplaceAll (s old new : string) : string := ReplaceAll_go 0 s old new.

(** [strings.Repeat(s, count)] for a non-negative count. *)
Fixpoint Repeat (s : string) (count : nat) : string :=
  match count with
  | 0 => EmptyString
  | S k => s +:+ Repeat s k
  end.

(** [strconv.Itoa] and [%v] on a non-negative [int]. *)
Definition Itoa (n : nat) : string := NilEmpty.string_of_uint (Nat.to_uint n).

End GoStrings.
Export GoStrings.

(** ** [replaceNth] *)

(** The loop of [replaceNth]: [remaining] is [n - m + 1], so that [m == n]
    reads [remaining = 1]; [i] is the offset from which the search goes on. *)
Fixpoint replaceNth_loop (remaining : nat) (s old new : string) (i : nat) : string :=
  match remaining with
  | 0 => s
  | S k =>
      match Index (slice_from i s) old with
      | None => s
      | Some x =>
          let i := i + x in
          match k with
          | 0 => slice_to i s +:+ new +:+ slice_from (i + String.length old) s
          | S _ => replaceNth_loop k s old new (i + String.length old)
          end
      end
  end.

(** [replaceNth(s, old, new, n)]: for [n <= 0] the loop body never runs. *)
Definition replaceNth (s old new : string) (n : Z) : string :=
  replaceNth_loop (Z.to_nat n) s old new 0.

(** ** What runs a call: printed text, panics and [os.Exit] *)

(** How a call ends: normally, by a run-time panic (an index out of range,
    a pattern that does not compile, a negative repeat count), or by
    [os.Exit]. *)
Inductive res (A : Type) : Type :=
  | Ok (a : A)
  | Panic
  | Exit (code : Z).
Arguments Ok {A} a.
Arguments Panic {A}.
Arguments Exit {A} code.

(** A computation that prints: the texts printed so far, in order, and how
    it ended.  What was printed before a panic stays printed. *)
Definition io (A : Type) : Type := list string * res A.

#[export] Instance io_ret : MRet io := λ A a, ([], Ok a).

#[export] Instance io_bind : MBind io := λ A B f m,
  match m with
  | (out, Ok a) => let '(out', r) := f a in (out ++ out', r)
  | (out, Panic) => (out, Panic)
  | (out, Exit code) => (out, Exit code)
  end.

(** [fmt.Println(s)] *)
Definition Println (s : string) : io unit := ([s], Ok tt).

Definition panic {A : Type} : io A := ([], Panic).

(** [os.Exit(code)] *)
Definition os_Exit {A : Type} (code : Z) : io A := ([], Exit code).

(** [l[i]], which panics when [i] is out of range. *)
Definition at_index {A : Type} (l : list A) (i : nat) : io A :=
  match l !! i with
  | Some x => mret x
  | None => panic
  end.

(** [for i, v := range l { acc = body(i, v, acc) }], from index [i]. *)
Fixpoint fold_range_from {A St : Type} (i : nat) (l : list A)
    (body : nat → A → St → io St) (acc : St) : io St :=
  match l with
  | [] => mret acc
  | v :: l' => acc' ← body i v acc; fold_range_from (S i) l' body acc'
  end.

Definition fold_range {A St : Type} (l : list A) (body : nat → A → St → io St)
    (acc : St) : io St :=
  fold_range_from 0 l body acc.

(** [for i, v := range l { body(i, v) }] *)
Definition for_range {A : Type} (l : list A) (body : nat → A → io unit) : io unit :=
  fold_range l (λ i v _, body i v) tt.

(** [strings.Repeat(s, count)], which panics on a negative count. *)
Definition strings_Repeat (s : string) (count : Z) : io string :=
  if (count <? 0)%Z then panic else mret (Repeat s (Z.to_nat count)).

(** ** The library functions the writer relies on *)

(** [byLen] implements [sort.Interface]: [Less(i, j)] is
    [len(a[i]) > len(a[j])]. *)
Definition byLen_Len (a : list string) : nat := length a.

Definition byLen_Less (a : list string) (i j : nat) : bool :=
  match a !! i, a !! j with
  | Some x, Some y => String.length y <? String.length x
  | _, _ => false
  end.

Definition byLen_Swap (a : list string) (i j : nat) : list string :=
  match a !! i, a !! j with
  | Some x, Some y => <[i:=y]> (<[j:=x]> a)
  | _, _ => a
  end.

(** [sort.IsSorted(byLen(a))] *)
Definition byLen_IsSorted (a : list string) : Prop :=
  ∀ i, S i < byLen_Len a → byLen_Less a (S i) i = false.

(** The characters [regexp.QuoteMeta] escapes. *)
Definition regexp_special (c : ascii) : bool :=
  bool_decide (c ∈ list_ascii_of_string "\.+*?()|[]{}^$").

(** A pattern made of ASCII characters none of which is special: as a
    regular expression it matches exactly its own text. *)
Fixpoint literal_pattern (pat : string) : bool :=
  match pat with
  | EmptyString => true
  | String c pat' =>
      (nat_of_ascii c <? 128) && negb (regexp_special c) && literal_pattern pat'
  end.

(** The functions of the Go library and of [tablewriter] that the writer
    calls and whose code is not part of the program.  They are taken with
    what their documentation guarantees:
    - [sort.Sort] permutes its argument into an order that [sort.IsSorted]
      accepts, and is not guaranteed to be stable;
    - [MustCompile_Find pat s] is
      [len(regexp.MustCompile(pat).FindStringIndex(s)) > 0], [None] when
      [pat] does not compile (a panic); a pattern without special
      characters matches where its text occurs;
    - [RuneCountInString] counts code points: at most one per byte, and one
      for an ASCII byte ([fmt] pads [%Ns] to [N] code points);
    - [json.Marshal] on a [map[string]string] or a slice of them returns the
      text or an error;
    - [tablewriter] renders a header (absent when the table is set up
      without border) and rows as lines of text. *)
Class GoLibrary := {
  sort_Sort_byLen : list string → list string;
  sort_Sort_byLen_perm : ∀ a, sort_Sort_byLen a ≡ₚ a;
  sort_Sort_byLen_sorted : ∀ a, byLen_IsSorted (sort_Sort_byLen a);
  MustCompile_Find : string → string → option bool;
  MustCompile_Find_literal : ∀ pat s,
    literal_pattern pat = true → MustCompile_Find pat s = Some (Contains s pat);
  RuneCountInString : string → nat;
  RuneCountInString_le : ∀ s, RuneCountInString s ≤ String.length s;
  RuneCountInString_ascii : ∀ c s,
    nat_of_ascii c < 128 → RuneCountInString (String c s) = S (RuneCountInString s);
  json_Marshal_object : gmap string string → string + string;
  json_Marshal_array : list (gmap string string) → string + string;
  tablewriter_Render : option (list string) → list (list string) → list string
}.

(** ** The row accumulator *)

Record OutputWriter : Type := {
  Keys : list string;
  Labels : list string;
  Values : list (list string);
  TempValues : list string
}.

Definition NewOutputWriter : OutputWriter :=
  {| Keys := []; Labels := []; Values := []; TempValues := [] |}.

Definition finishExistingLine (ow : OutputWriter) : OutputWriter :=
  if decide (0 < length (TempValues ow)) then
    {| Keys := Keys ow; Labels := Labels ow;
       Values := Values ow ++ [TempValues ow];
       TempValues := TempValues ow |}
  else ow.

Definition StartLine (ow : OutputWriter) : OutputWriter :=
  let ow := finishExistingLine ow in
  {| Keys := Keys ow; Labels := Labels ow; Values := Values ow;
     TempValues := replicate (length (Keys ow)) "" |}.

(** The search loop of [AppendDataWithLabel]: it does not stop at the first
    match, so [found] ends as the last index that holds [key]; [None] stands
    for [-1]. *)
Fixpoint find_key (keys : list string) (key : string) (i : nat)
    (found : option nat) : option nat :=
  match keys with
  | [] => found
  | v :: keys' =>
      find_key keys' key (S i) (if decide (v = key) then Some i else found)
  end.

Definition AppendDataWithLabel (ow : OutputWriter) (key value label : string)
    : res OutputWriter :=
  match find_key (Keys ow) key 0 None with
  | None =>
      Ok {| Keys := Keys ow ++ [key]; Labels := Labels ow ++ [label];
            Values := Values ow; TempValues := TempValues ow ++ [value] |}
  | Some found =>
      if decide (found < length (TempValues ow)) then
        Ok {| Keys := Keys ow; Labels := Labels ow; Values := Values ow;
              TempValues := <[found:=value]> (TempValues ow) |}
      else Panic
  end.

Definition AppendData (ow : OutputWriter) (key value : string) : res OutputWriter :=
  AppendDataWithLabel ow key value key.

(** [NewOutputWriterWithMap(data)]; [entries] are the entries of [data] in
    the order in which [range] yields them, which Go leaves unspecified. *)
Definition NewOutputWriterWithMap (entries : list (string * string))
    : res OutputWriter :=
  foldl (λ r kv,
           match r with
           | Ok ow => AppendData ow kv.1 kv.2
           | Panic => Panic
           | Exit code => Exit code
           end)
    (Ok (StartLine NewOutputWriter)) entries.

(** The calls that build an accumulator, and a sequence of them run on a new
    writer. *)
Inductive call : Type :=
  | CallStartLine
  | CallAppend (key value label : string).

Definition run_call (ow : OutputWriter) (c : call) : res OutputWriter :=
  match c with
  | CallStartLine => Ok (StartLine ow)
  | CallAppend key value label => AppendDataWithLabel ow key value label
  end.

Fixpoint run_calls (ow : OutputWriter) (cs : list call) : res OutputWriter :=
  match cs with
  | [] => Ok ow
  | c :: cs' =>
      match run_call ow c with
      | Ok ow' => run_calls ow' cs'
      | Panic => Panic
      | Exit code => Exit code
      end
  end.

(** An accumulator obtained from [NewOutputWriter] by calls of [StartLine]
    and [AppendData(WithLabel)]. *)
Definition built (ow : OutputWriter) : Prop :=
  ∃ cs, run_calls NewOutputWriter cs = Ok ow.

(** The columns are aligned: one label per key, one slot of the row in
    progress per key, and no key twice. *)
Definition well_formed (ow : OutputWriter) : Prop :=
  length (Labels ow) = length (Keys ow) ∧
  length (TempValues ow) = length (Keys ow) ∧
  NoDup (Keys ow).

(** ** The renderers *)

Section Renderers.

Context `{GoLibrary}.

(** The map [data[k] = row[i]] that the JSON renderers build for one row. *)
Definition row_map (keys : list string) (row : io (list string))
    : io (gmap string string) :=
  fold_range keys
    (λ i k (data : gmap string string),
       r ← row; v ← at_index r i; mret (<[k:=v]> data))
    ∅.

Definition print_json (marshalled : string + string) : io unit :=
  match marshalled with
  | inl jsonString => Println jsonString
  | inr err => _ ← Println err; os_Exit (-1)
  end.

Definition WriteSingleObjectJSON (ow : OutputWriter) : OutputWriter * io unit :=
  let ow := finishExistingLine ow in
  (ow,
   data ← row_map (Keys ow) (at_index (Values ow) 0);
   print_json (json_Marshal_object data)).

Definition WriteMultipleObjectsJSON (ow : OutputWriter) : OutputWriter * io unit :=
  let ow := finishExistingLine ow in
  (ow,
   data ← fold_range (Values ow)
             (λ i row (data : list (gmap string string)),
                dataRow ← row_map (Keys ow) (mret row);
                mret (data ++ [dataRow]))
             [];
   print_json (json_Marshal_array data)).

(** The line [fmt.Printf("%Ns : %s\n", label, value)] prints for [N > 0],
    and for the format ["%0s : %s\n"] when [N = 0]: the label, padded on the
    left with spaces up to [N] code points. *)
Definition Printf_label_value (N : nat) (label value : string) : string :=
  Repeat " " (N - RuneCountInString label) +:+ label +:+ " : " +:+ value.

Definition longestLabelLength (labels : list string) : nat :=
  foldl (λ longest label,
           if longest <? String.length label then String.length label else longest)
        0 labels.

Definition WriteKeyValues (ow : OutputWriter) : OutputWriter * io unit :=
  let ow := finishExistingLine ow in
  (ow,
   for_range (Keys ow)
     (λ i _,
        row ← at_index (Values ow) 0;
        value ← at_index row i;
        label ← at_index (Labels ow) i;
        Println (Printf_label_value (longestLabelLength (Labels ow)) label value))).

Definition WriteTable (ow : OutputWriter) : OutputWriter * io unit :=
  let ow := finishExistingLine ow in
  (ow,
   (tablewriter_Render
      (if decide (0 < length (Keys ow)) then Some (Labels ow) else None)
      (Values ow),
    Ok tt)).

(** [fmt.Sprintf("$%v$", index)] *)
Definition placeholder (index : nat) : string := "$" +:+ Itoa index +:+ "$".

Definition tab : string := String (ascii_of_nat 9) EmptyString.
Definition newline : string := String (ascii_of_nat 10) EmptyString.

(** The last two replacements of a line: the two-character sequences
    backslash-t and backslash-n become a tab and a newline. *)
Definition unescape (output : string) : string :=
  ReplaceAll (ReplaceAll output "\t" tab) "\n" newline.

(** First inner loop: the leftmost occurrence of each key, in the order of
    the sorted keys, becomes the placeholder of its index. *)
Definition to_placeholders (keys : list string) (fields : string) : io string :=
  fold_range keys
    (λ key name output,
       match MustCompile_Find name output with
       | None => panic
       | Some true => mret (replaceNth output name (placeholder key) 1)
       | Some false => mret output
       end)
    fields.

(** Second inner loop: the leftmost occurrence of each placeholder becomes
    the value [customMap[name]] (the empty string for a missing key). *)
Definition to_values (keys : list string) (customMap : gmap string string)
    (output : string) : io string :=
  fold_range keys
    (λ index name output,
       if Contains output (placeholder index)
       then mret (ReplaceFirst output (placeholder index)
                    (default "" (customMap !! name)))
       else mret output)
    output.

(** The body of the loop over the rows.  It does not read the row. *)
Definition custom_line (keys : list string) (customMap : gmap string string)
    (fields : string) : io unit :=
  output ← to_placeholders keys fields;
  output ← to_values keys customMap output;
  Println (unescape output).

Definition WriteCustomOutput (ow : OutputWriter) (fields : string)
    : OutputWriter * io unit :=
  let ow := finishExistingLine ow in
  let defaultKeys := Keys ow in
  let ow := {| Keys := sort_Sort_byLen (Keys ow); Labels := Labels ow;
               Values := Values ow; TempValues := TempValues ow |} in
  (ow,
   customMap ← fold_range defaultKeys
                  (λ index key (customMap : gmap string string),
                     row ← at_index (Values ow) 0;
                     v ← at_index row index;
                     mret (<[key:=v]> customMap))
                  ∅;
   for_range (Values ow) (λ _ _, custom_line (Keys ow) customMap fields)).

Definition WriteSubheader (ow : OutputWriter) (label : string) : io unit :=
  let count := ((72 - Z.of_nat (String.length label) + 2) `quot` 2)%Z in
  left ← strings_Repeat "-" count;
  right ← strings_Repeat "-" count;
  Println (left +:+ " " +:+ label +:+ " " +:+ right).

Definition WriteHeader (ow : OutputWriter) (label : string) : io unit :=
  Println (label +:+ ":").

(** The five renderers, to quantify over them. *)
Inductive renderer : Type :=
  | SingleObjectJSON
  | MultipleObjectsJSON
  | KeyValues
  | Table
  | CustomOutput (fields : string).

Definition render (r : renderer) (ow : OutputWriter) : OutputWriter * io unit :=
  match r with
  | SingleObjectJSON => WriteSingleObjectJSON ow
  | MultipleObjectsJSON => WriteMultipleObjectsJSON ow
  | KeyValues => WriteKeyValues ow
  | Table => WriteTable ow
  | CustomOutput fields => WriteCustomOutput ow fields
  end.

End Renderers.

(** ** A library to run the model on examples

    An instance of [GoLibrary] that computes.  It stands for the Go
    library on the examples only: keys without special characters, ASCII
    labels. *)

Module Reference.

Definition longer_first (x y : string) : Prop := String.length y ≤ String.length x.

#[export] Instance longer_first_dec : RelDecision longer_first.
Proof. intros x y. unfold longer_first. apply _. Defined.

#[export] Instance longer_first_total : Total longer_first.
Proof. intros x y. unfold longer_first. lia. Qed.

(** Code points of well-formed UTF-8: the bytes that are not continuation
    bytes. *)
Fixpoint count_runes (s : string) : nat :=
  match s with
  | EmptyString => 0
  | String c s' =>
      let n := nat_of_ascii c in
      if (128 <=? n) && (n <? 192) then count_runes s' else S (count_runes s')
  end.

Fixpoint join (sep : string) (l : list string) : string :=
  match l with
  | [] => ""
  | [x] => x
  | x :: l' => x +:+ sep +:+ join sep l'
  end.

Definition quote (s : string) : string := String (ascii_of_nat 34) s +:+ String (ascii_of_nat 34) "".

Definition marshal_object (m : gmap string string) : string :=
  "{" +:+ join "," ((λ kv, quote kv.1 +:+ ":" +:+ quote kv.2) <$> map_to_list m) +:+ "}".

Definition find_literal (pat s : string) : option bool :=
  if literal_pattern pat then Some (Contains s pat) else None.

Lemma find_literal_spec pat s :
  literal_pattern pat = true → find_literal pat s = Some (Contains s pat).
Proof. intros Hpat. unfold find_literal. by rewrite Hpat. Qed.

Lemma Sorted_adjacent (l : list string) i x y :
  Sorted longer_first l → l !! i = Some x → l !! S i = Some y → longer_first x y.
Proof.
  intros Hs. revert i. induction Hs as [|a l Hs IH Hhd]; intros i Hx Hy; [done|].
  destruct i as [|i]; simplify_eq/=.
  - destruct Hhd; by simplify_eq/=.
  - by eapply IH.
Qed.

Lemma merge_sort_IsSorted a : byLen_IsSorted (merge_sort longer_first a).
Proof.
  intros i Hi. unfold byLen_Less, byLen_Len in *.
  destruct (merge_sort longer_first a !! S i) as [y|] eqn:Hy; [|done].
  destruct (merge_sort longer_first a !! i) as [x|] eqn:Hx; [|done].
  apply Nat.ltb_ge.
  apply (Sorted_adjacent (merge_sort longer_first a) i x y); [|done..].
  apply Sorted_merge_sort, _.
Qed.

Lemma count_runes_le s : count_runes s ≤ String.length s.
Proof.
  induction s as [|c s IH]; cbn [count_runes String.length]; [done|].
  case_match; lia.
Qed.

Lemma count_runes_ascii c s :
  nat_of_ascii c < 128 → count_runes (String c s) = S (count_runes s).
Proof.
  intros Hc. cbn [count_runes].
  destruct (Nat.leb_spec 128 (nat_of_ascii c)); [lia|done].
Qed.

(** Merge sort by decreasing length; the patterns without special
    characters, any other pattern being refused; code points of well-formed
    UTF-8; JSON objects and tables in a plain rendering. *)
#[export] Instance library : GoLibrary := {|
  sort_Sort_byLen := merge_sort longer_first;
  sort_Sort_byLen_perm := merge_sort_Permutation longer_first;
  sort_Sort_byLen_sorted := merge_sort_IsSorted;
  MustCompile_Find := find_literal;
  MustCompile_Find_literal := find_literal_spec;
  RuneCountInString := count_runes;
  RuneCountInString_le := count_runes_le;
  RuneCountInString_ascii := count_runes_ascii;
  json_Marshal_object m := inl (marshal_object m);
  json_Marshal_array l := inl ("[" +:+ join "," (marshal_object <$> l) +:+ "]");
  tablewriter_Render header rows :=
    match header with Some h => [join " | " h] | None => [] end ++ (join " | " <$> rows)
|}.

End Reference.

(** ** Notions used to state the properties *)



(** The map [customMap[key] = row[index]] of the keys to the values of a
    row that has a value for every key. *)
Definition customMap_of (keys row : list string) : gmap string string :=
  foldl (λ customMap kv, <[kv.1:=kv.2]> customMap) ∅ (zip keys row).

(** The accumulator after [AppendData("ID", "1")] and
    [AppendData("BUILDID", "99")] on a new writer. *)
Definition ID_BUILDID : OutputWriter :=
  {| Keys := ["ID"; "BUILDID"]; Labels := ["ID"; "BUILDID"]; Values := [];
     TempValues := ["1"; "99"] |}.

(** The finalized rows: none is empty, none is longer than the registry of
    columns, and a row is never longer than the rows after it. *)
Definition rows_within_columns (ow : OutputWriter) : Prop :=
  Forall (λ row, 0 < length row ≤ length (Keys ow)) (Values ow) ∧
  StronglySorted (λ row row', length row ≤ length row') (Values ow).

(** A computation that prints nothing. *)
Definition silent {A : Type} (m : io A) : Prop := m.1 = [].

(** The keys of a sequence of calls, in the order of the calls. *)
Fixpoint call_keys (cs : list call) : list string :=
  match cs with
  | [] => []
  | CallStartLine :: cs' => call_keys cs'
  | CallAppend key _ _ :: cs' => key :: call_keys cs'
  end.

(** The distinct elements of a list, each at the place of its first
    occurrence. *)
Fixpoint first_insertion_order (keys : list string) : list string :=
  match keys with
  | [] => []
  | k :: keys' => k :: filter (λ k', k' ≠ k) (first_insertion_order keys')
  end.

(** The label given by the first call that sets [key]. *)
Fixpoint first_label (cs : list call) (key : string) : option string :=
  match cs with
  | [] => None
  | CallStartLine :: cs' => first_label cs' key
  | CallAppend key' _ label :: cs' =>
      if decide (key' = key) then Some label else first_label cs' key
  end.

(** [old] occurs in [s] at offset [i]. *)
Definition occurs_at (old s : string) (i : nat) : Prop :=
  ∃ pre post, s = pre +:+ old +:+ post ∧ String.length pre = i.

(** The occurrence at offset [i] is the leftmost one. *)
Definition first_occurrence (old s : string) (i : nat) : Prop :=
  occurs_at old s i ∧ ∀ j, occurs_at old s j → i ≤ j.

(** ** Facts on byte strings *)

Section StringFacts.

Implicit Types s t u old new sub pre post : string.

Lemma app_String c s t : String c s +:+ t = String c (s +:+ t).
Proof. reflexivity. Qed.

Lemma app_empty_l s : "" +:+ s = s.
Proof. reflexivity. Qed.

Lemma app_empty_r s : s +:+ "" = s.
Proof. induction s as [|c s IH]; [done|]. by rewrite app_String, IH. Qed.

Lemma app_assoc' s t u : (s +:+ t) +:+ u = s +:+ t +:+ u.
Proof. induction s as [|c s IH]; [done|]. by rewrite !app_String, IH. Qed.

Lemma length_append s t : String.length (s +:+ t) = String.length s + String.length t.
Proof. induction s as [|c s IH]; [done|]. rewrite app_String. simpl. by rewrite IH. Qed.

Lemma slice_from_0 s : slice_from 0 s = s.
Proof. by destruct s. Qed.

Lemma slice_to_app s t : slice_to (String.length s) (s +:+ t) = s.
Proof. induction s as [|c s IH]; [by destruct t|]. rewrite app_String. simpl. by rewrite IH. Qed.

Lemma slice_from_app s t : slice_from (String.length s) (s +:+ t) = t.
Proof. induction s as [|c s IH]; [by destruct t|]. rewrite app_String. simpl. by rewrite IH. Qed.

Lemma slice_from_app_plus s t n :
  slice_from (String.length s + n) (s +:+ t) = slice_from n t.
Proof. induction s as [|c s IH]; [done|]. rewrite app_String. simpl. by rewrite IH. Qed.

(** [HasPrefix s p] holds exactly when [s] starts with [p]. *)
Lemma HasPrefix_app s p : HasPrefix (p +:+ s) p = true.
Proof.
  induction p as [|a p IH]; [by destruct s|].
  rewrite app_String. simpl. by rewrite Ascii.eqb_refl.
Qed.

Lemma HasPrefix_inv s p : HasPrefix s p = true → ∃ rest, s = p +:+ rest.
Proof.
  revert s. induction p as [|a p IH]; intros s H.
  - by exists s.
  - destruct s as [|b s]; [done|]. simpl in H.
    destruct (Ascii.eqb a b) eqn:E; [|done].
    apply Ascii.eqb_eq in E as ->. destruct (IH _ H) as [rest ->].
    by exists rest.
Qed.

Lemma HasPrefix_empty s : HasPrefix s "" = true.
Proof. by destruct s. Qed.

Lemma occurs_at_0 old s : occurs_at old s 0 ↔ HasPrefix s old = true.
Proof.
  split.
  - intros (pre & post & -> & Hlen). destruct pre; [|done].
    rewrite app_empty_l. apply HasPrefix_app.
  - intros [rest ->]%HasPrefix_inv. by exists "", rest.
Qed.

Lemma occurs_at_S old c s i : occurs_at old (String c s) (S i) ↔ occurs_at old s i.
Proof.
  split.
  - intros (pre & post & Heq & Hlen). destruct pre as [|a pre]; [done|].
    rewrite app_String in Heq. simplify_eq/=. by exists pre, post.
  - intros (pre & post & -> & Hlen). exists (String c pre), post. by simplify_eq/=.
Qed.

Lemma occurs_at_empty_string old i : occurs_at old "" (S i) → False.
Proof.
  intros (pre & post & Heq & Hlen). destruct pre; [done|].
  by rewrite app_String in Heq.
Qed.

Lemma Index_unfold s old :
  Index s old =
  if HasPrefix s old then Some 0
  else match s with EmptyString => None | String _ s' => S <$> Index s' old end.
Proof. by destruct s. Qed.

Lemma Index_Some_first s old i : Index s old = Some i → first_occurrence old s i.
Proof.
  revert i. induction s as [|c s IH]; intros i; rewrite Index_unfold.
  - destruct (HasPrefix "" old) eqn:E; [|done].
    intros [= <-]. split; [by apply occurs_at_0|lia].
  - destruct (HasPrefix (String c s) old) eqn:E.
    + intros [= <-]. split; [by apply occurs_at_0|lia].
    + destruct (Index s old) as [k|]; [|done]. simpl. intros [= <-].
      destruct (IH k eq_refl) as [Hocc Hmin]. split; [by apply occurs_at_S|].
      intros [|j] Hj; [apply occurs_at_0 in Hj; congruence|].
      apply occurs_at_S, Hmin in Hj. lia.
Qed.

Lemma Index_None_absent s old i : Index s old = None → ¬ occurs_at old s i.
Proof.
  revert i. induction s as [|c s IH]; intros i; rewrite Index_unfold.
  - destruct (HasPrefix "" old) eqn:E; [done|]. intros _ Hocc. destruct i.
    + apply occurs_at_0 in Hocc. congruence.
    + by apply occurs_at_empty_string in Hocc.
  - destruct (HasPrefix (String c s) old) eqn:E; [done|].
    destruct (Index s old) as [k|]; [done|]. intros _ Hocc. destruct i.
    + apply occurs_at_0 in Hocc. congruence.
    + apply occurs_at_S in Hocc. by eapply IH.
Qed.

Lemma Index_Some s old i : Index s old = Some i ↔ first_occurrence old s i.
Proof.
  split; [apply Index_Some_first|]. intros [Hocc Hmin].
  destruct (Index s old) as [k|] eqn:Hk.
  - apply Index_Some_first in Hk as [Hk Hkmin]. f_equal.
    apply Hmin in Hk. apply Hkmin in Hocc. lia.
  - by apply Index_None_absent with (i := i) in Hk.
Qed.

Lemma Index_None s old : Index s old = None ↔ ∀ i, ¬ occurs_at old s i.
Proof.
  split; [intros H i; by apply Index_None_absent|]. intros H.
  destruct (Index s old) as [k|] eqn:Hk; [|done].
  apply Index_Some_first in Hk as [Hk _]. by apply H in Hk.
Qed.

Lemma occurs_dec old s : (∃ i, first_occurrence old s i) ∨ (∀ i, ¬ occurs_at old s i).
Proof.
  destruct (Index s old) as [i|] eqn:Hi.
  - left. exists i. by apply Index_Some.
  - right. by apply Index_None.
Qed.

(** With [n = 1] the loop of [replaceNth] runs once: it is the replacement
    of the leftmost occurrence. *)
Lemma replaceNth_1 s old new : replaceNth s old new 1 = ReplaceFirst s old new.
Proof.
  unfold replaceNth, ReplaceFirst. change (Z.to_nat 1) with 1.
  cbn [replaceNth_loop]. rewrite slice_from_0. by destruct (Index s old).
Qed.

Lemma ReplaceFirst_occurrence s old new pre post :
  s = pre +:+ old +:+ post →
  (∀ j, occurs_at old s j → String.length pre ≤ j) →
  ReplaceFirst s old new = pre +:+ new +:+ post.
Proof.
  intros -> Hmin. unfold ReplaceFirst.
  assert (Index (pre +:+ old +:+ post) old = Some (String.length pre)) as ->.
  { apply Index_Some. split; [by exists pre, post|done]. }
  by rewrite slice_to_app, slice_from_app_plus, slice_from_app.
Qed.


Lemma ReplaceFirst_absent s old new :
  (∀ i, ¬ occurs_at old s i) → ReplaceFirst s old new = s.
Proof. intros H%Index_None. unfold ReplaceFirst. by rewrite H. Qed.

(** *** Characters that do not occur *)

Lemma Contains_char_cons a s c :
  Contains (String a s) (String c "") = Ascii.eqb c a || Contains s (String c "").
Proof.
  unfold Contains. rewrite Index_unfold. cbn [HasPrefix].
  destruct (Ascii.eqb c a); [by rewrite HasPrefix_empty|].
  by destruct (Index s (String c "")).
Qed.

Lemma Contains_char_app s t c :
  Contains (s +:+ t) (String c "")
  = Contains s (String c "") || Contains t (String c "").
Proof.
  induction s as [|a s IH]; [by rewrite app_empty_l|].
  rewrite app_String, !Contains_char_cons, IH. by rewrite orb_assoc.
Qed.

(** The search of a text that starts with [c] passes over a stretch without
    [c]. *)
Lemma Index_skip_fresh x rest c sub :
  Contains x (String c "") = false →
  Index (x +:+ rest) (String c sub)
  = (λ j, String.length x + j) <$> Index rest (String c sub).
Proof.
  induction x as [|a x IH]; intros Hx.
  - rewrite app_empty_l. by destruct (Index rest _).
  - rewrite Contains_char_cons in Hx. apply orb_false_elim in Hx as [Ha Hx].
    rewrite app_String, Index_unfold. cbn [HasPrefix]. rewrite Ha, IH by done.
    by destruct (Index rest _).
Qed.

Lemma Index_absent_char s c sub :
  Contains s (String c "") = false → Index s (String c sub) = None.
Proof.
  intros Hs. rewrite <-(app_empty_r s), Index_skip_fresh by done. done.
Qed.

Lemma Contains_absent_char s c sub :
  Contains s (String c "") = false → Contains s (String c sub) = false.
Proof. intros Hs. unfold Contains. by rewrite Index_absent_char. Qed.




Lemma ReplaceFirst_Index s old new a b :
  s = a +:+ old +:+ b → Index s old = Some (String.length a) →
  ReplaceFirst s old new = a +:+ new +:+ b.
Proof.
  intros -> Hi. unfold ReplaceFirst. rewrite Hi.
  by rewrite slice_to_app, slice_from_app_plus, slice_from_app.
Qed.

Lemma Index_Some_split s old i :
  Index s old = Some i →
  ∃ a b, s = a +:+ old +:+ b ∧ String.length a = i.
Proof. intros [Hocc _]%Index_Some. exact Hocc. Qed.





Lemma length_Repeat s n : String.length (Repeat s n) = n * String.length s.
Proof. induction n as [|n IH]; [done|]. simpl. by rewrite length_append, IH. Qed.

End StringFacts.

(** ** Facts on printing computations and loops *)

Section LoopFacts.

Context {A St : Type}.

Lemma io_bind_ret {B C : Type} (b : B) (f : B → io C) : (mret b ≫= f) = f b.
Proof. unfold mret, io_ret, mbind, io_bind. by destruct (f b). Qed.

Lemma io_bind_Println {C : Type} (s : string) (f : unit → io C) :
  (Println s ≫= f) = ((s :: (f tt).1), (f tt).2).
Proof. unfold Println, mbind, io_bind. by destruct (f tt). Qed.

Lemma at_index_Some (l : list A) i x : l !! i = Some x → at_index l i = mret x.
Proof. unfold at_index. by intros ->. Qed.

End LoopFacts.

(** A loop whose body prints one line at every turn. *)
Lemma for_range_lines {A : Type} (l : list A) (line : nat → A → string)
    (body : nat → A → io unit) :
  (∀ i v, l !! i = Some v → body i v = Println (line i v)) →
  for_range l body = (imap line l, Ok tt).
Proof.
  unfold for_range, fold_range.
  enough (∀ k, (∀ i v, l !! i = Some v → body (k + i) v = Println (line (k + i) v)) →
               fold_range_from k l (λ i v _, body i v) tt
               = (imap (λ i, line (k + i)) l, Ok tt)) as Hgen.
  { intros Hbody. by apply (Hgen 0). }
  induction l as [|v l IH]; intros k Hbody; [done|].
  cbn [fold_range_from imap].
  rewrite <-(Nat.add_0_r k) at 1. rewrite (Hbody 0 v eq_refl), io_bind_Println.
  rewrite (IH (S k)).
  - simpl. do 2 f_equal. apply imap_ext. intros i x _. simpl. f_equal. lia.
  - intros i w Hw. replace (S k + i) with (k + S i) by lia. by apply Hbody.
Qed.

(** A loop whose body is the same at every turn prints the same text at
    every turn, as long as the body ends normally. *)
Lemma for_range_constant {A : Type} (l : list A) (body : io unit) out :
  body = (out, Ok tt) →
  for_range l (λ _ _, body) = (concat (replicate (length l) out), Ok tt).
Proof.
  intros ->. unfold for_range, fold_range. generalize 0.
  induction l as [|v l IH]; intros i; [done|].
  cbn [fold_range_from length replicate]. unfold mbind at 1, io_bind.
  by rewrite IH.
Qed.

(** ** Facts on the library *)

Section LibraryFacts.

Context `{GoLibrary}.

Lemma sort_Sort_byLen_singleton k : sort_Sort_byLen [k] = [k].
Proof. apply Permutation_singleton_r, sort_Sort_byLen_perm. Qed.

(** Two keys of different lengths: the longer one comes first. *)
Lemma sort_Sort_byLen_pair a b :
  String.length a < String.length b →
  sort_Sort_byLen [a; b] = [b; a] ∧ sort_Sort_byLen [b; a] = [b; a].
Proof.
  intros Hlen.
  assert (Hbad : ¬ byLen_IsSorted [a; b]).
  { intros Hs. specialize (Hs 0). unfold byLen_Less, byLen_Len in Hs. simpl in Hs.
    assert ((String.length a <? String.length b) = false) as E by (apply Hs; lia).
    apply Nat.ltb_ge in E. lia. }
  split.
  - pose proof (sort_Sort_byLen_perm [a; b]) as Hp.
    pose proof (sort_Sort_byLen_sorted [a; b]) as Hs.
    symmetry in Hp. apply Permutation_length_2_inv in Hp as [E|E]; [|done].
    rewrite E in Hs. done.
  - pose proof (sort_Sort_byLen_perm [b; a]) as Hp.
    pose proof (sort_Sort_byLen_sorted [b; a]) as Hs.
    symmetry in Hp. apply Permutation_length_2_inv in Hp as [E|E]; [done|].
    rewrite E in Hs. done.
Qed.

Lemma RuneCountInString_spaces k s :
  RuneCountInString (Repeat " " k +:+ s) = k + RuneCountInString s.
Proof.
  induction k as [|k IH]; [done|]. cbn [Repeat]. rewrite app_assoc'.
  change (" " +:+ Repeat " " k +:+ s) with (String " " (Repeat " " k +:+ s)).
  rewrite RuneCountInString_ascii, IH; [done|]. vm_compute. lia.
Qed.

Lemma longestLabelLength_max labels :
  longestLabelLength labels = max_list (String.length <$> labels).
Proof.
  unfold longestLabelLength.
  enough (∀ acc,
    foldl (λ longest label,
             if longest <? String.length label then String.length label else longest)
      acc labels = acc `max` max_list (String.length <$> labels)) as Hgen.
  { by rewrite Hgen. }
  induction labels as [|label labels IH]; intros acc; [simpl; lia|].
  cbn [foldl]. rewrite IH, fmap_cons. cbn [max_list]. unfold id.
  destruct (Nat.ltb_spec acc (String.length label)); lia.
Qed.

End LibraryFacts.

(** ** Facts on the accumulator *)

Lemma Keys_finishExistingLine ow : Keys (finishExistingLine ow) = Keys ow.
Proof. unfold finishExistingLine. by case_decide. Qed.

Lemma Labels_finishExistingLine ow : Labels (finishExistingLine ow) = Labels ow.
Proof. unfold finishExistingLine. by case_decide. Qed.

Lemma TempValues_finishExistingLine ow :
  TempValues (finishExistingLine ow) = TempValues ow.
Proof. unfold finishExistingLine. by case_decide. Qed.

Lemma Values_finishExistingLine_nonempty ow :
  TempValues ow ≠ [] →
  Values (finishExistingLine ow) = Values ow ++ [TempValues ow].
Proof.
  intros Hne. unfold finishExistingLine. case_decide as Hlen; [done|].
  destruct (TempValues ow); [done|]. simpl in Hlen. lia.
Qed.

Lemma Values_StartLine ow : Values (StartLine ow) = Values (finishExistingLine ow).
Proof. done. Qed.

Lemma find_key_notin keys key i found :
  key ∉ keys → find_key keys key i found = found.
Proof.
  revert i found. induction keys as [|v keys IH]; intros i found Hnotin; [done|].
  apply not_elem_of_cons in Hnotin as [Hne Hnotin]. simpl.
  rewrite decide_False by done. by apply IH.
Qed.

Lemma find_key_NoDup keys key i found j :
  NoDup keys → keys !! j = Some key → find_key keys key i found = Some (i + j).
Proof.
  revert i found j. induction keys as [|v keys IH]; intros i found j Hnd Hj; [done|].
  apply NoDup_cons in Hnd as [Hv Hnd]. destruct j as [|j]; simplify_eq/=.
  - rewrite decide_True by done. rewrite find_key_notin by done. f_equal. lia.
  - rewrite decide_False.
    + rewrite (IH _ _ j) by done. f_equal. lia.
    + intros ->. apply Hv. by eapply list_elem_of_lookup_2.
Qed.

Lemma well_formed_New : well_formed NewOutputWriter.
Proof. repeat split. apply NoDup_nil_2. Qed.

Lemma well_formed_finishExistingLine ow :
  well_formed ow → well_formed (finishExistingLine ow).
Proof.
  unfold well_formed.
  by rewrite Keys_finishExistingLine, Labels_finishExistingLine,
    TempValues_finishExistingLine.
Qed.

Lemma well_formed_StartLine ow : well_formed ow → well_formed (StartLine ow).
Proof.
  intros (Hl & Ht & Hnd). unfold well_formed, StartLine. simpl.
  rewrite Keys_finishExistingLine, Labels_finishExistingLine, length_replicate.
  done.
Qed.

(** Setting a key that has a column writes the slot of that column in the
    row in progress; nothing else changes. *)
Lemma AppendDataWithLabel_existing ow key value label i :
  well_formed ow → Keys ow !! i = Some key →
  i < length (TempValues ow) ∧
  AppendDataWithLabel ow key value label =
    Ok {| Keys := Keys ow; Labels := Labels ow; Values := Values ow;
          TempValues := <[i:=value]> (TempValues ow) |}.
Proof.
  intros (Hl & Ht & Hnd) Hi.
  assert (i < length (TempValues ow)) as Hlt.
  { rewrite Ht. by eapply lookup_lt_Some. }
  split; [done|]. unfold AppendDataWithLabel.
  rewrite (find_key_NoDup _ _ _ _ i) by done. simpl.
  by rewrite decide_True.
Qed.

(** Setting a new key adds a column at the end. *)
Lemma AppendDataWithLabel_new ow key value label :
  key ∉ Keys ow →
  AppendDataWithLabel ow key value label =
    Ok {| Keys := Keys ow ++ [key]; Labels := Labels ow ++ [label];
          Values := Values ow; TempValues := TempValues ow ++ [value] |}.
Proof. intros Hnew. unfold AppendDataWithLabel. by rewrite find_key_notin. Qed.

Lemma run_calls_app ow cs cs' :
  run_calls ow (cs ++ cs') =
  match run_calls ow cs with
  | Ok ow' => run_calls ow' cs'
  | Panic => Panic
  | Exit code => Exit code
  end.
Proof.
  revert ow. induction cs as [|c cs IH]; intros ow; [done|]. simpl.
  by destruct (run_call ow c).
Qed.

Lemma call_keys_app cs cs' : call_keys (cs ++ cs') = call_keys cs ++ call_keys cs'.
Proof.
  induction cs as [|[|key value label] cs IH]; simpl; [done..|]. by rewrite IH.
Qed.

Lemma first_label_app cs cs' key :
  first_label (cs ++ cs') key =
  match first_label cs key with
  | Some label => Some label
  | None => first_label cs' key
  end.
Proof.
  induction cs as [|[|key' value label] cs IH]; simpl; [done..|].
  by case_decide.
Qed.

Lemma first_label_None cs key : first_label cs key = None ↔ key ∉ call_keys cs.
Proof.
  induction cs as [|[|key' value label] cs IH]; simpl.
  - split; [intros _; apply not_elem_of_nil|done].
  - done.
  - case_decide as E.
    + subst. split; [done|]. intros []. apply elem_of_cons. by left.
    + rewrite IH, not_elem_of_cons. naive_solver.
Qed.

Lemma elem_of_first_insertion_order keys k :
  k ∈ first_insertion_order keys ↔ k ∈ keys.
Proof.
  induction keys as [|k' keys IH]; [done|]. simpl.
  rewrite !elem_of_cons, list_elem_of_filter, IH.
  destruct (decide (k = k')); naive_solver.
Qed.

Lemma NoDup_first_insertion_order keys : NoDup (first_insertion_order keys).
Proof.
  induction keys as [|k keys IH]; simpl; [apply NoDup_nil_2|].
  apply NoDup_cons. split.
  - rewrite list_elem_of_filter. naive_solver.
  - by apply NoDup_filter.
Qed.

Lemma first_insertion_order_snoc keys k :
  first_insertion_order (keys ++ [k]) =
  if decide (k ∈ keys) then first_insertion_order keys
  else first_insertion_order keys ++ [k].
Proof.
  induction keys as [|k' keys IH]; [done|]. simpl. rewrite IH.
  destruct (decide (k ∈ keys)) as [Hin|Hnotin].
  - rewrite decide_True; [done|]. apply elem_of_cons. by right.
  - rewrite filter_app. destruct (decide (k = k')) as [->|Hne].
    + rewrite decide_True by (apply elem_of_cons; by left).
      rewrite filter_cons_False by naive_solver. by rewrite app_nil_r.
    + rewrite decide_False by (rewrite elem_of_cons; naive_solver).
      by rewrite filter_cons_True.
Qed.

(** The number of distinct keys. *)
Lemma length_first_insertion_order keys :
  length (first_insertion_order keys) = size (list_to_set keys : gset string).
Proof.
  rewrite <-(size_list_to_set (C:=gset string) (first_insertion_order keys))
    by apply NoDup_first_insertion_order.
  f_equal. apply set_eq. intros k.
  by rewrite !elem_of_list_to_set, elem_of_first_insertion_order.
Qed.

Lemma well_formed_run_call ow c ow' :
  well_formed ow → run_call ow c = Ok ow' → well_formed ow'.
Proof.
  intros Hwf. destruct c as [|key value label]; simpl.
  - intros [= <-]. by apply well_formed_StartLine.
  - destruct (decide (key ∈ Keys ow)) as [Hin|Hnew].
    + apply list_elem_of_lookup in Hin as [i Hi].
      destruct (AppendDataWithLabel_existing ow key value label i Hwf Hi)
        as [_ ->].
      intros [= <-]. destruct Hwf as (Hl & Ht & Hnd).
      unfold well_formed. simpl. by rewrite length_insert.
    + rewrite AppendDataWithLabel_new by done. intros [= <-].
      destruct Hwf as (Hl & Ht & Hnd). unfold well_formed. simpl.
      rewrite !length_app, Hl, Ht. repeat split.
      apply NoDup_app. repeat split; [done| |apply NoDup_singleton].
      intros k Hk ->%list_elem_of_singleton. done.
Qed.

(** The columns after a sequence of calls on a new writer. *)
Lemma run_calls_columns cs :
  ∃ ow, run_calls NewOutputWriter cs = Ok ow ∧
        well_formed ow ∧
        Keys ow = first_insertion_order (call_keys cs) ∧
        Forall2 (λ key label, first_label cs key = Some label) (Keys ow) (Labels ow).
Proof.
  induction cs as [|c cs IH] using rev_ind.
  - exists NewOutputWriter. split; [done|]. split; [apply well_formed_New|].
    split; [done|]. apply Forall2_nil_2.
  - destruct IH as (ow & Hrun & Hwf & Hkeys & Hlabels).
    rewrite run_calls_app, Hrun, call_keys_app.
    destruct c as [|key value label].
    + exists (StartLine ow). simpl. split; [done|].
      split; [by apply well_formed_StartLine|].
      rewrite Keys_finishExistingLine, Labels_finishExistingLine, app_nil_r.
      split; [done|]. eapply Forall2_impl; [done|]. intros k l Hk.
      by rewrite first_label_app, Hk.
    + simpl. rewrite first_insertion_order_snoc.
      destruct (decide (key ∈ call_keys cs)) as [Hin|Hnew].
      * assert (key ∈ Keys ow) as Hin'
          by by rewrite Hkeys, elem_of_first_insertion_order.
        apply list_elem_of_lookup in Hin' as [i Hi].
        destruct (AppendDataWithLabel_existing ow key value label i Hwf Hi)
          as [Hlt Happ].
        eexists. split; [by rewrite Happ|]. split.
        { eapply (well_formed_run_call ow (CallAppend key value label)); done. }
        split; [done|]. simpl. eapply Forall2_impl; [done|]. intros k l Hk.
        by rewrite first_label_app, Hk.
      * assert (key ∉ Keys ow) as Hnew'
          by by rewrite Hkeys, elem_of_first_insertion_order.
        eexists. split; [by rewrite AppendDataWithLabel_new|]. split.
        { eapply (well_formed_run_call ow (CallAppend key value label)); [done|].
          by apply AppendDataWithLabel_new. }
        simpl. split; [by rewrite Hkeys|]. apply Forall2_app.
        -- eapply Forall2_impl; [done|]. intros k l Hk.
           by rewrite first_label_app, Hk.
        -- apply Forall2_cons_2; [|apply Forall2_nil_2].
           rewrite first_label_app.
           apply first_label_None in Hnew as ->. simpl.
           by rewrite decide_True.
Qed.

(** Every accumulator built by calls on a new writer is well formed. *)
Lemma built_well_formed ow : built ow → well_formed ow.
Proof.
  intros [cs Hcs]. destruct (run_calls_columns cs) as (ow' & Hrun & Hwf & _).
  rewrite Hcs in Hrun. by simplify_eq.
Qed.

Section RendererFacts.

Context `{GoLibrary}.

(** What a renderer does to the accumulator: the flush, and for the
    custom-template renderer the sort of [Keys] in place. *)
Lemma Values_render r ow : Values (render r ow).1 = Values (finishExistingLine ow).
Proof. by destruct r. Qed.

Lemma TempValues_render r ow : TempValues (render r ow).1 = TempValues ow.
Proof. destruct r; simpl; apply TempValues_finishExistingLine. Qed.

Lemma Labels_render r ow : Labels (render r ow).1 = Labels ow.
Proof. destruct r; simpl; apply Labels_finishExistingLine. Qed.

Lemma Keys_render r ow :
  Keys (render r ow).1 =
  match r with
  | CustomOutput _ => sort_Sort_byLen (Keys ow)
  | _ => Keys ow
  end.
Proof. destruct r; simpl; by rewrite Keys_finishExistingLine. Qed.

(** The four renderers other than the custom-template one leave [Keys],
    [Labels] and the finalized rows as they are, but for the flush. *)
Lemma render_frame r ow :
  (∀ fields, r ≠ CustomOutput fields) →
  Keys (render r ow).1 = Keys ow ∧
  Labels (render r ow).1 = Labels ow ∧
  Values (render r ow).1 = Values (finishExistingLine ow).
Proof.
  intros Hr. rewrite Keys_render, Labels_render, Values_render.
  destruct r; try done. by destruct (Hr fields).
Qed.

Lemma Keys_WriteCustomOutput_perm ow fields :
  Keys (WriteCustomOutput ow fields).1 ≡ₚ Keys ow.
Proof. simpl. rewrite Keys_finishExistingLine. apply sort_Sort_byLen_perm. Qed.

End RendererFacts.

(** ** Facts on the custom-template renderer *)

Section CustomOutputFacts.

Context `{GoLibrary}.

Lemma concat_replicate_singleton {A : Type} (n : nat) (x : A) :
  concat (replicate n [x]) = replicate n x.
Proof. induction n as [|n IH]; [done|]. simpl. by rewrite IH. Qed.

(** The renderer on rows [rows] (after the flush), once the map of the
    values is built. *)
Lemma WriteCustomOutput_lines ow fields customMap line :
  fold_range (Keys ow)
    (λ index key (customMap : gmap string string),
       row ← at_index (Values (finishExistingLine ow)) 0;
       v ← at_index row index;
       mret (<[key:=v]> customMap)) ∅ = mret customMap →
  custom_line (sort_Sort_byLen (Keys ow)) customMap fields = Println line →
  (WriteCustomOutput ow fields).2 =
    (replicate (length (Values (finishExistingLine ow))) line, Ok tt).
Proof.
  intros Hmap Hline. unfold WriteCustomOutput. cbn [snd Keys Values].
  rewrite Keys_finishExistingLine, Hmap, io_bind_ret.
  rewrite (for_range_constant _ _ [line]) by done.
  by rewrite concat_replicate_singleton.
Qed.

(** One column, a template without ["$"]: the line is the template with
    the leftmost occurrence of the key replaced by the value. *)
Lemma custom_line_single k v fields (customMap : gmap string string) :
  literal_pattern k = true →
  customMap !! k = Some v →
  Contains fields "$" = false →
  custom_line [k] customMap fields = Println (unescape (replaceNth fields k v 1)).
Proof.
  intros Hk Hv Hfields. unfold custom_line, to_placeholders, to_values, fold_range.
  cbn [fold_range_from]. rewrite MustCompile_Find_literal by done.
  change (placeholder 0) with "$0$". rewrite !replaceNth_1, Hv.
  change (default "" (Some v)) with v.
  destruct (Index fields k) as [i|] eqn:Hi.
  - assert (Contains fields k = true) as -> by (unfold Contains; by rewrite Hi).
    destruct (Index_Some_split _ _ _ Hi) as (a & b & -> & <-).
    rewrite !io_bind_ret.
    rewrite (ReplaceFirst_Index _ _ "$0$" a b eq_refl Hi).
    rewrite (ReplaceFirst_Index _ _ v a b eq_refl Hi).
    rewrite Contains_char_app in Hfields.
    apply orb_false_elim in Hfields as [Ha _].
    assert (Index (a +:+ "$0$" +:+ b) "$0$" = Some (String.length a)) as Hi0.
    { rewrite Index_skip_fresh by done.
      rewrite Index_unfold, HasPrefix_app. simpl. f_equal. lia. }
    assert (Contains (a +:+ "$0$" +:+ b) "$0$" = true) as ->
      by (unfold Contains; by rewrite Hi0).
    rewrite !io_bind_ret.
    by rewrite (ReplaceFirst_Index _ _ v a b eq_refl Hi0).
  - assert (Contains fields k = false) as -> by (unfold Contains; by rewrite Hi).
    rewrite !io_bind_ret. rewrite Contains_absent_char by done.
    rewrite !io_bind_ret. unfold ReplaceFirst. by rewrite Hi.
Qed.

Lemma WriteCustomOutput_single_column ow fields k v row :
  Keys ow = [k] →
  literal_pattern k = true →
  Values (finishExistingLine ow) !! 0 = Some row →
  row !! 0 = Some v →
  Contains fields "$" = false →
  (WriteCustomOutput ow fields).2 =
    (replicate (length (Values (finishExistingLine ow)))
       (unescape (replaceNth fields k v 1)), Ok tt).
Proof.
  intros Hkeys Hk Hrow Hv Hfields.
  apply (WriteCustomOutput_lines _ _ (<[k:=v]> ∅)).
  - rewrite Hkeys. unfold fold_range. cbn [fold_range_from].
    rewrite (at_index_Some _ _ _ Hrow), io_bind_ret.
    rewrite (at_index_Some _ _ _ Hv), io_bind_ret. done.
  - rewrite Hkeys, sort_Sort_byLen_singleton.
    apply custom_line_single; [done| |done]. apply lookup_insert_eq.
Qed.











End CustomOutputFacts.

(** ** Properties *)

(** C1 fails on the code.  After [StartLine(); AppendData("ID", "1");
    StartLine(); AppendData("ID", "2")] the accumulator holds the rows
    ["1"] and ["2"]; the custom-template renderer prints one line per row,
    but both lines show the value of row 0: the map of the values is built
    once, from [Values[0]], and the loop over the rows does not read the
    row. *)
Theorem WriteCustomOutput_repeats_row_0 `{GoLibrary} :
  ∃ ow,
    run_calls NewOutputWriter
      [CallStartLine; CallAppend "ID" "1" "ID";
       CallStartLine; CallAppend "ID" "2" "ID"] = Ok ow ∧
    Values (finishExistingLine ow) = [["1"]; ["2"]] ∧
    (WriteCustomOutput ow "ID").2 = (["1"; "1"], Ok tt).
Proof.
  exists {| Keys := ["ID"]; Labels := ["ID"]; Values := [["1"]];
            TempValues := ["2"] |}.
  split; [reflexivity|]. split; [reflexivity|].
  by rewrite (WriteCustomOutput_single_column _ _ "ID" "1" ["1"]).
Qed.

(** C2 fails on the custom-template renderer.  After the calls
    [StartLine(); AppendData("ID", "1"); AppendDataWithLabel("NAME", "bob",
    "Name")] the renderer leaves [Keys] sorted by length, [NAME] before
    [ID], whereas [Labels] and the rows keep the order of insertion: a
    JSON rendering that follows pairs [NAME] with ["1"] and [ID] with
    ["bob"]. *)
Theorem WriteCustomOutput_sorts_Keys_in_place `{GoLibrary} :
  ∃ ow,
    run_calls NewOutputWriter
      [CallStartLine; CallAppend "ID" "1" "ID"; CallAppend "NAME" "bob" "Name"]
      = Ok ow ∧
    Keys ow = ["ID"; "NAME"] ∧
    Keys (WriteCustomOutput ow "ID").1 = ["NAME"; "ID"] ∧
    Labels (WriteCustomOutput ow "ID").1 = ["ID"; "Name"] ∧
    Values (WriteCustomOutput ow "ID").1 = [["1"; "bob"]] ∧
    (WriteSingleObjectJSON (WriteCustomOutput ow "ID").1).2 =
      print_json (json_Marshal_object (<["ID":="bob"]> (<["NAME":="1"]> ∅))).
Proof.
  exists {| Keys := ["ID"; "NAME"]; Labels := ["ID"; "Name"]; Values := [];
            TempValues := ["1"; "bob"] |}.
  split; [reflexivity|]. split; [reflexivity|].
  assert (sort_Sort_byLen ["ID"; "NAME"] = ["NAME"; "ID"]) as Hsort.
  { apply sort_Sort_byLen_pair. simpl. lia. }
  cbn [WriteCustomOutput fst Keys Labels Values]. rewrite Keys_finishExistingLine.
  cbn [Keys]. rewrite Hsort. split; [done|]. split; [done|]. split; [done|].
  unfold WriteSingleObjectJSON. cbn [snd]. unfold finishExistingLine. simpl.
  by destruct (print_json _).
Qed.






(** C5, as the code has it.  For a label of at most 75 bytes,
    [WriteSubheader] prints one line: a run of dashes, a space, the label,
    a space and a run of dashes.  Both runs have the same length,
    [(72 - len(label) + 2) / 2], so the label is centred; the line is 76
    bytes wide for a label of even length up to 74 and 75 bytes wide for
    one of odd length. *)
Theorem WriteSubheader_centred (ow : OutputWriter) (label : string) :
  String.length label ≤ 75 →
  let count := (74 - String.length label) / 2 in
  WriteSubheader ow label =
    ([Repeat "-" count +:+ " " +:+ label +:+ " " +:+ Repeat "-" count], Ok tt) ∧
  String.length (Repeat "-" count) = count ∧
  (String.length label ≤ 74 →
   String.length (Repeat "-" count +:+ " " +:+ label +:+ " " +:+ Repeat "-" count)
   = 76 - String.length label `mod` 2).
Proof.
  intros Hlen count. split; [|split].
  - unfold WriteSubheader.
    assert (((72 - Z.of_nat (String.length label) + 2) `quot` 2)%Z
            = Z.of_nat count) as ->.
    { subst count. destruct (decide (String.length label = 75)) as [E|Hne].
      - rewrite E. reflexivity.
      - replace (72 - Z.of_nat (String.length label) + 2)%Z
          with (Z.of_nat (74 - String.length label)) by lia.
        rewrite Z.quot_div_nonneg by lia. by rewrite Nat2Z.inj_div. }
    unfold strings_Repeat.
    destruct (Z.ltb_spec (Z.of_nat count) 0) as [Hneg|_]; [lia|].
    rewrite Nat2Z.id. by rewrite !io_bind_ret.
  - rewrite length_Repeat. simpl. lia.
  - intros Hlen'. rewrite !length_append, !length_Repeat.
    change (String.length "-") with 1. change (String.length " ") with 1.
    pose proof (Nat.div_mod_eq (74 - String.length label) 2) as Hdiv.
    pose proof (Nat.div_mod_eq (String.length label) 2) as Hdiv'.
    pose proof (Nat.mod_upper_bound (String.length label) 2).
    pose proof (Nat.mod_upper_bound (74 - String.length label) 2).
    fold count in Hdiv.
    lia.
Qed.

Lemma WriteSubheader_centred_witness :
  WriteSubheader NewOutputWriter "X" =
    ([Repeat "-" 36 +:+ " X " +:+ Repeat "-" 36], Ok tt).
Proof.
  apply (WriteSubheader_centred NewOutputWriter "X"). simpl. lia.
Defined.

(** C5, as the claim has it, fails.  A label of 76 bytes makes the count
    negative: [strings.Repeat] panics and nothing is printed.  And the line
    printed for ["X"] is 75 bytes wide, not 72. *)
Lemma WriteSubheader_counterexample :
  WriteSubheader NewOutputWriter (Repeat "A" 76) = ([], Panic) ∧
  String.length <$> (WriteSubheader NewOutputWriter "X").1 = [75].
Proof. split; reflexivity. Qed.

(** C6. After any sequence of [AppendData(WithLabel)] calls on a new writer
    (calls of [StartLine] may come in between), the writer has one column
    per distinct key, in the order in which the keys were first set, and
    the label of a column is the one given when its key was first set.
    Setting a key that already has a column, on an accumulator so built,
    writes the value at the position of that column in the row in progress:
    [Keys], [Labels] and the finalized rows stay as they are. *)
Theorem setField_columns (cs : list call) :
  (∃ ow, run_calls NewOutputWriter cs = Ok ow ∧
         Keys ow = first_insertion_order (call_keys cs) ∧
         length (Keys ow) = size (list_to_set (call_keys cs) : gset string) ∧
         Forall2 (λ key label, first_label cs key = Some label)
           (Keys ow) (Labels ow)) ∧
  (∀ ow key value label i,
      built ow → Keys ow !! i = Some key →
      i < length (TempValues ow) ∧
      AppendDataWithLabel ow key value label =
        Ok {| Keys := Keys ow; Labels := Labels ow; Values := Values ow;
              TempValues := <[i:=value]> (TempValues ow) |}).
Proof.
  split.
  - destruct (run_calls_columns cs) as (ow & Hrun & Hwf & Hkeys & Hlabels).
    exists ow. repeat split; try done.
    by rewrite Hkeys, length_first_insertion_order.
  - intros ow key value label i Hbuilt%built_well_formed.
    by apply AppendDataWithLabel_existing.
Qed.

Lemma setField_columns_witness :
  let ow := {| Keys := ["ID"; "NAME"]; Labels := ["ID"; "Name"];
               Values := []; TempValues := ["1"; "bob"] |} in
  run_calls NewOutputWriter
    [CallAppend "ID" "1" "ID"; CallAppend "NAME" "bob" "Name"] = Ok ow ∧
  AppendDataWithLabel ow "NAME" "eve" "Nickname" =
    Ok {| Keys := ["ID"; "NAME"]; Labels := ["ID"; "Name"];
          Values := []; TempValues := ["1"; "eve"] |}.
Proof.
  intros ow. split; [reflexivity|].
  apply (proj2 (setField_columns []) ow "NAME" "eve" "Nickname" 1).
  - by exists [CallAppend "ID" "1" "ID"; CallAppend "NAME" "bob" "Name"].
  - reflexivity.
Defined.

(** C7. For an accumulator (built from a new writer by calls of
    [StartLine] and [AppendData(WithLabel)]) whose row 0, after the flush,
    has a value for every column, [WriteKeyValues] prints one line
    per column, in the order of the columns: the label, then [" : "], then
    the value of row 0 for the column, the label being padded on the left
    with spaces to the greatest length of a label, so that every padded
    label is that many code points wide.  Without any column it prints
    nothing and ends normally. *)
Theorem WriteKeyValues_lines `{GoLibrary} (ow : OutputWriter) :
  (∀ row,
      built ow →
      Values (finishExistingLine ow) !! 0 = Some row →
      length (Keys ow) ≤ length row →
      let N := max_list (String.length <$> Labels ow) in
      (WriteKeyValues ow).2 =
        (zip_with (λ label value,
                     Repeat " " (N - RuneCountInString label)
                     +:+ label +:+ " : " +:+ value)
           (Labels ow) row,
         Ok tt) ∧
      length (WriteKeyValues ow).2.1 = length (Keys ow) ∧
      Forall (λ label,
                RuneCountInString
                  (Repeat " " (N - RuneCountInString label) +:+ label) = N)
        (Labels ow)) ∧
  (Keys ow = [] → (WriteKeyValues ow).2 = ([], Ok tt)).
Proof.
  split.
  - intros row (Hlabels & _)%built_well_formed Hrow Hlen N.
    assert ((WriteKeyValues ow).2 =
            (zip_with (λ label value,
                         Repeat " " (N - RuneCountInString label)
                         +:+ label +:+ " : " +:+ value)
               (Labels ow) row, Ok tt)) as Hout.
    { unfold WriteKeyValues. cbn [snd].
      rewrite Keys_finishExistingLine, Labels_finishExistingLine.
      rewrite (for_range_lines _
                 (λ i _, Printf_label_value (longestLabelLength (Labels ow))
                           (default "" (Labels ow !! i)) (default "" (row !! i)))).
      - f_equal. apply list_eq. intros i.
        rewrite list_lookup_imap, lookup_zip_with, longestLabelLength_max.
        destruct (Keys ow !! i) as [k|] eqn:Hk; simpl.
        + apply lookup_lt_Some in Hk.
          destruct (lookup_lt_is_Some_2 (Labels ow) i) as [label ->]; [lia|].
          destruct (lookup_lt_is_Some_2 row i) as [value ->]; [lia|]. done.
        + apply lookup_ge_None in Hk.
          rewrite (proj2 (lookup_ge_None (Labels ow) i)) by lia. done.
      - intros i k Hk. apply lookup_lt_Some in Hk.
        destruct (lookup_lt_is_Some_2 (Labels ow) i) as [label Hlabel]; [lia|].
        destruct (lookup_lt_is_Some_2 row i) as [value Hvalue]; [lia|].
        rewrite (at_index_Some _ _ _ Hrow), io_bind_ret.
        rewrite (at_index_Some _ _ _ Hvalue), io_bind_ret.
        rewrite (at_index_Some _ _ _ Hlabel), io_bind_ret.
        by rewrite Hlabel, Hvalue. }
    split; [done|]. split.
    + rewrite Hout. cbn [fst]. rewrite length_zip_with. lia.
    + apply Forall_forall. intros label Hin.
      rewrite RuneCountInString_spaces.
      assert (String.length label ≤ N) as Hmax.
      { apply max_list_elem_of_le, list_elem_of_fmap. eauto. }
      pose proof (RuneCountInString_le label). lia.
  - intros Hkeys. unfold WriteKeyValues. cbn [snd].
    by rewrite Keys_finishExistingLine, Hkeys.
Qed.

Lemma WriteKeyValues_lines_witness :
  (WriteKeyValues (H:=Reference.library)
     {| Keys := ["name"; "region"]; Labels := ["Name"; "Region"];
        Values := []; TempValues := ["web"; "LON1"] |}).2
  = (["  Name : web"; "Region : LON1"], Ok tt).
Proof.
  refine (proj1 (proj1 (WriteKeyValues_lines (H:=Reference.library) _)
                   ["web"; "LON1"] _ _ _)).
  - by exists [CallAppend "name" "web" "Name"; CallAppend "region" "LON1" "Region"].
  - reflexivity.
  - simpl. lia.
Defined.




(** C9. The flush appends the row in progress to the finalized rows and
    leaves the buffer as it is.  Hence, when the buffer is not empty, two
    renderers in succession, or a renderer followed by [StartLine], append
    the same row twice: the finalized rows end with two copies of it. *)
Theorem flush_twice_duplicates_row `{GoLibrary} (r1 r2 : renderer) (ow : OutputWriter) :
  TempValues ow ≠ [] →
  TempValues (finishExistingLine ow) = TempValues ow ∧
  Values (finishExistingLine ow) = Values ow ++ [TempValues ow] ∧
  Values (render r2 (render r1 ow).1).1
    = Values ow ++ [TempValues ow; TempValues ow] ∧
  Values (StartLine (render r1 ow).1)
    = Values ow ++ [TempValues ow; TempValues ow].
Proof.
  intros Hne. split; [apply TempValues_finishExistingLine|].
  split; [by apply Values_finishExistingLine_nonempty|].
  assert (Values (finishExistingLine (render r1 ow).1)
          = Values ow ++ [TempValues ow; TempValues ow]) as Hflush.
  { rewrite Values_finishExistingLine_nonempty
      by (by rewrite TempValues_render).
    rewrite Values_render, TempValues_render.
    rewrite Values_finishExistingLine_nonempty by done.
    by rewrite <-app_assoc. }
  split; [by rewrite Values_render|by rewrite Values_StartLine].
Qed.

Lemma flush_twice_duplicates_row_witness :
  let ow := {| Keys := ["ID"]; Labels := ["ID"]; Values := [];
               TempValues := ["42"] |} in
  (render (H:=Reference.library) KeyValues ow).2 = (["ID : 42"], Ok tt) ∧
  Values (render (H:=Reference.library) Table
            (render (H:=Reference.library) KeyValues ow).1).1
    = [["42"]; ["42"]] ∧
  Values (StartLine (render (H:=Reference.library) (CustomOutput "ID") ow).1)
    = [["42"]; ["42"]].
Proof.
  intros ow. split; [reflexivity|]. split.
  - apply (flush_twice_duplicates_row (H:=Reference.library) KeyValues Table ow).
    discriminate.
  - apply (flush_twice_duplicates_row (H:=Reference.library)
             (CustomOutput "ID") Table ow).
    discriminate.
Defined.

(** C10. [replaceNth(s, old, new, 1)] is [s] with exactly its leftmost
    occurrence of [old] replaced by [new]: when [s] is [pre ++ old ++ post]
    and no occurrence of [old] starts before the end of [pre], the result is
    [pre ++ new ++ post]; when [old] does not occur in [s], the result is
    [s]; and one of the two cases always applies.  (The statement holds for
    the empty [old] as well, so no hypothesis on [old] is needed.) *)
Theorem replaceNth_first_occurrence (s old new : string) :
  (∀ pre post,
      s = pre +:+ old +:+ post →
      (∀ j, occurs_at old s j → String.length pre ≤ j) →
      replaceNth s old new 1 = pre +:+ new +:+ post) ∧
  ((∀ i, ¬ occurs_at old s i) → replaceNth s old new 1 = s) ∧
  ((∃ i, first_occurrence old s i) ∨ (∀ i, ¬ occurs_at old s i)).
Proof.
  rewrite replaceNth_1. split; [|split].
  - intros pre post. apply ReplaceFirst_occurrence.
  - apply ReplaceFirst_absent.
  - apply occurs_dec.
Qed.

Lemma replaceNth_first_occurrence_witness :
  replaceNth "xIDyID" "ID" "7" 1 = "x7yID" ∧ replaceNth "xyz" "ID" "7" 1 = "xyz".
Proof.
  split.
  - apply (proj1 (replaceNth_first_occurrence "xIDyID" "ID" "7") "x" "yID").
    + reflexivity.
    + apply (proj1 (Index_Some "xIDyID" "ID" 1) eq_refl).
  - apply (proj1 (proj2 (replaceNth_first_occurrence "xyz" "ID" "7"))).
    by apply Index_None.
Defined.

(** * Further properties *)

(** ** Invariants of the accumulator *)

Lemma Values_finishExistingLine_same ow :
  TempValues ow = [] → Values (finishExistingLine ow) = Values ow.
Proof.
  intros He. unfold finishExistingLine. case_decide as Hlen; [|done].
  rewrite He in Hlen. simpl in Hlen. lia.
Qed.

(** Induction on the calls that build an accumulator. *)
Lemma built_ind (P : OutputWriter → Prop) :
  P NewOutputWriter →
  (∀ ow c ow', built ow → P ow → run_call ow c = Ok ow' → P ow') →
  ∀ ow, built ow → P ow.
Proof.
  intros Hnew Hstep ow [cs Hcs]. revert ow Hcs.
  induction cs as [|c cs IH] using rev_ind; intros ow Hcs.
  - by simplify_eq/=.
  - rewrite run_calls_app in Hcs.
    destruct (run_calls NewOutputWriter cs) as [ow0| |] eqn:Hcs0; [|done..].
    simpl in Hcs. destruct (run_call ow0 c) as [ow1| |] eqn:Hc; [|done..].
    simplify_eq. apply (Hstep ow0 c); [by exists cs|by apply IH|done].
Qed.

Lemma run_call_cases ow c ow' :
  well_formed ow → run_call ow c = Ok ow' →
  (c = CallStartLine ∧ ow' = StartLine ow) ∨
  (∃ key value label i, (c = CallAppend key value label) ∧ (Keys ow !! i = Some key) ∧
     ow' = {| Keys := Keys ow; Labels := Labels ow; Values := Values ow;
              TempValues := <[i:=value]> (TempValues ow) |}) ∨
  (∃ key value label, (c = CallAppend key value label) ∧ (key ∉ Keys ow) ∧
     ow' = {| Keys := Keys ow ++ [key]; Labels := Labels ow ++ [label];
              Values := Values ow; TempValues := TempValues ow ++ [value] |}).
Proof.
  intros Hwf. destruct c as [|key value label]; cbn [run_call]; intros Hrun.
  - left. by simplify_eq.
  - right. destruct (decide (key ∈ Keys ow)) as [Hin|Hnew].
    + apply list_elem_of_lookup in Hin as [i Hi].
      destruct (AppendDataWithLabel_existing ow key value label i Hwf Hi)
        as [_ Heq].
      rewrite Heq in Hrun. simplify_eq. left. by exists key, value, label, i.
    + rewrite AppendDataWithLabel_new in Hrun by done. simplify_eq.
      right. by exists key, value, label.
Qed.

Lemma rows_within_columns_built ow : built ow → rows_within_columns ow.
Proof.
  induction 1 as [|ow c ow' Hbuilt [Hall Hsorted] Hc] using built_ind.
  - split; [apply Forall_nil_2|constructor].
  - pose proof (built_well_formed _ Hbuilt) as Hwf.
    destruct (run_call_cases _ _ _ Hwf Hc)
      as [[-> ->]|[(key & value & label & i & -> & Hi & ->)
                  |(key & value & label & -> & Hnew & ->)]].
    + destruct Hwf as (_ & Htemp & _).
      unfold rows_within_columns, StartLine, finishExistingLine.
      case_decide as Hlen; simpl; [|done]. split.
      * apply Forall_app. split; [done|]. apply Forall_singleton. lia.
      * apply StronglySorted_app_2; [|done|repeat constructor].
        intros row row' Hrow ->%list_elem_of_singleton.
        rewrite Forall_forall in Hall. apply Hall in Hrow. lia.
    + done.
    + split; [|done]. simpl. eapply Forall_impl; [done|].
      intros row. simpl. rewrite length_app. simpl. lia.
Qed.

(** X1. An accumulator built from a new writer by calls of [StartLine] and
    [AppendData(WithLabel)] has one label and one slot of the row in
    progress per key, and no key twice; [AppendDataWithLabel] never panics
    on it. *)
Theorem built_columns_aligned (ow : OutputWriter) :
  built ow →
  length (Labels ow) = length (Keys ow) ∧
  length (TempValues ow) = length (Keys ow) ∧
  NoDup (Keys ow) ∧
  (∀ key value label, ∃ ow', AppendDataWithLabel ow key value label = Ok ow').
Proof.
  intros Hbuilt. pose proof (built_well_formed _ Hbuilt) as Hwf.
  destruct Hwf as (Hl & Ht & Hnd). repeat split; try done.
  intros key value label. destruct (decide (key ∈ Keys ow)) as [Hin|Hnew].
  - apply list_elem_of_lookup in Hin as [i Hi].
    destruct (AppendDataWithLabel_existing ow key value label i) as [_ ->]; eauto.
    by repeat split.
  - rewrite AppendDataWithLabel_new by done. eauto.
Qed.

Lemma built_columns_aligned_witness :
  length (TempValues (StartLine ID_BUILDID)) = length (Keys (StartLine ID_BUILDID)).
Proof.
  apply (built_columns_aligned (StartLine ID_BUILDID)).
  by exists [CallAppend "ID" "1" "ID"; CallAppend "BUILDID" "99" "BUILDID";
             CallStartLine].
Defined.

(** X2. In an accumulator so built no finalized row is empty or longer than
    the registry of columns, and a row is never longer than a later row: a
    row finalized before a column was added stays without a value for it. *)
Theorem built_rows_within_columns (ow : OutputWriter) :
  built ow →
  Forall (λ row, 0 < length row ≤ length (Keys ow)) (Values ow) ∧
  (∀ i j row row', i ≤ j → Values ow !! i = Some row → Values ow !! j = Some row' →
     length row ≤ length row').
Proof.
  intros [Hall Hsorted]%rows_within_columns_built. split; [done|].
  intros i j row row' Hij Hi Hj.
  destruct (decide (i = j)) as [->|Hne]; [by simplify_eq|].
  assert (i < j) as Hlt by lia. clear Hij Hne.
  revert i j Hlt Hi Hj. induction Hsorted as [|r rows Hs IH Hr]; intros i j Hlt Hi Hj; [done|].
  destruct j as [|j]; [lia|]. destruct i as [|i]; simplify_eq/=.
  - rewrite Forall_forall in Hr. apply Hr. by eapply list_elem_of_lookup_2.
  - apply Forall_cons in Hall as [_ Hall]. eapply (IH Hall i j); [lia|done..].
Qed.

Lemma built_rows_within_columns_witness :
  Forall (λ row, 0 < length row ≤ 2) [["1"]; [""; "eve"]].
Proof.
  apply (built_rows_within_columns
           {| Keys := ["ID"; "NAME"]; Labels := ["ID"; "Name"];
              Values := [["1"]; [""; "eve"]]; TempValues := [""; ""] |}).
  by exists [CallAppend "ID" "1" "ID"; CallStartLine;
             CallAppend "NAME" "eve" "Name"; CallStartLine].
Defined.




(** X4. [StartLine] opens a row with one empty value per column and leaves
    the columns as they are.  A second [StartLine] right after the first
    finalizes that row of empty values, unless there is no column. *)
Theorem StartLine_twice (ow : OutputWriter) :
  TempValues (StartLine ow) = replicate (length (Keys ow)) "" ∧
  Keys (StartLine ow) = Keys ow ∧
  Labels (StartLine ow) = Labels ow ∧
  Values (StartLine (StartLine ow)) =
    Values (StartLine ow) ++
    (if decide (Keys ow = []) then [] else [replicate (length (Keys ow)) ""]).
Proof.
  unfold StartLine at 1 2 3. cbn [TempValues Keys Labels].
  rewrite Keys_finishExistingLine, Labels_finishExistingLine.
  repeat split. rewrite Values_StartLine.
  destruct (Keys ow) as [|key keys] eqn:Hkeys.
  - rewrite decide_True by done. rewrite app_nil_r.
    rewrite Values_finishExistingLine_same; [done|].
    unfold StartLine. cbn [TempValues]. by rewrite Keys_finishExistingLine, Hkeys.
  - rewrite decide_False by done.
    rewrite Values_finishExistingLine_nonempty.
    + unfold StartLine at 2. cbn [TempValues].
      by rewrite Keys_finishExistingLine, Hkeys.
    + unfold StartLine. cbn [TempValues].
      by rewrite Keys_finishExistingLine, Hkeys.
Qed.

Lemma NewOutputWriterWithMap_from keys values entries :
  length keys = length values →
  NoDup (keys ++ entries.*1) →
  foldl (λ r kv,
           match r with
           | Ok ow => AppendData ow kv.1 kv.2
           | Panic => Panic
           | Exit code => Exit code
           end)
    (Ok {| Keys := keys; Labels := keys; Values := []; TempValues := values |})
    entries
  = Ok {| Keys := keys ++ entries.*1; Labels := keys ++ entries.*1; Values := [];
          TempValues := values ++ entries.*2 |}.
Proof.
  revert keys values. induction entries as [|[k v] entries IH]; intros keys values Hlen Hnd.
  - by rewrite !app_nil_r.
  - cbn [foldl fmap list_fmap fst snd]. unfold AppendData.
    rewrite AppendDataWithLabel_new.
    + cbn [Keys Labels Values TempValues]. rewrite IH.
      * by rewrite <-!app_assoc.
      * rewrite !length_app. simpl. lia.
      * by rewrite <-app_assoc.
    + simpl. apply NoDup_app in Hnd as (_ & Hnd & _). intros Hk.
      apply (Hnd k Hk). simpl. apply elem_of_cons. by left.
Qed.

(** X5. On entries with distinct keys (as the entries of a map are),
    [NewOutputWriterWithMap] gives one column per entry, in the order of the
    iteration, each labelled by its key; the values are the row in progress
    and no row is finalized.  The result is an accumulator built by calls. *)
Theorem NewOutputWriterWithMap_columns (entries : list (string * string)) :
  NoDup entries.*1 →
  NewOutputWriterWithMap entries =
    Ok {| Keys := entries.*1; Labels := entries.*1; Values := [];
          TempValues := entries.*2 |} ∧
  built {| Keys := entries.*1; Labels := entries.*1; Values := [];
           TempValues := entries.*2 |}.
Proof.
  intros Hnd.
  assert (NewOutputWriterWithMap entries =
    Ok {| Keys := entries.*1; Labels := entries.*1; Values := [];
          TempValues := entries.*2 |}) as Hnew.
  { unfold NewOutputWriterWithMap.
    change (StartLine NewOutputWriter)
      with {| Keys := []; Labels := []; Values := []; TempValues := [] |}.
    by rewrite (NewOutputWriterWithMap_from [] []). }
  split; [done|].
  exists (CallStartLine :: ((λ kv, CallAppend kv.1 kv.2 kv.1) <$> entries)).
  rewrite <-Hnew. unfold NewOutputWriterWithMap. cbn [run_calls run_call].
  generalize (StartLine NewOutputWriter). clear.
  induction entries as [|[k v] entries IH]; intros ow; [done|].
  cbn [fmap list_fmap run_calls run_call foldl fst snd]. unfold AppendData at 2.
  destruct (AppendDataWithLabel ow k v k) as [ow'| |]; [apply IH| |].
  - clear. by induction entries.
  - clear. by induction entries.
Qed.

Lemma NewOutputWriterWithMap_columns_witness :
  NewOutputWriterWithMap [("id", "abc"); ("size", "10")] =
    Ok {| Keys := ["id"; "size"]; Labels := ["id"; "size"]; Values := [];
          TempValues := ["abc"; "10"] |}.
Proof.
  apply (NewOutputWriterWithMap_columns [("id", "abc"); ("size", "10")]).
  refine (bool_decide_unpack _ _). vm_compute. exact I.
Defined.

(** ** The JSON renderers *)

Lemma io_bind_panic {B C : Type} (f : B → io C) : (panic ≫= f) = panic.
Proof. done. Qed.

Section JSONFacts.

(** The loop of [row_map] from column [i] on, for a row that is at hand. *)
Lemma row_map_from_covered keys row i (m : gmap string string) :
  i + length keys ≤ length row →
  fold_range_from i keys
    (λ i k (data : gmap string string),
       r ← mret row; v ← at_index r i; mret (<[k:=v]> data)) m
  = mret (foldl (λ customMap kv, <[kv.1:=kv.2]> customMap) m
            (zip keys (drop i row))).
Proof.
  revert i m. induction keys as [|key keys IH]; intros i m Hlen; [done|].
  simpl in Hlen. cbn [fold_range_from].
  destruct (lookup_lt_is_Some_2 row i) as [v Hv]; [lia|].
  rewrite io_bind_ret, (at_index_Some _ _ _ Hv), !io_bind_ret.
  rewrite IH by lia. by rewrite (drop_S _ _ _ Hv).
Qed.

Lemma row_map_from_short keys row i (m : gmap string string) :
  i ≤ length row → length row < i + length keys →
  fold_range_from i keys
    (λ i k (data : gmap string string),
       r ← mret row; v ← at_index r i; mret (<[k:=v]> data)) m
  = panic.
Proof.
  revert i m. induction keys as [|key keys IH]; intros i m Hi Hlen;
    simpl in Hlen; [lia|].
  cbn [fold_range_from]. rewrite io_bind_ret.
  destruct (row !! i) as [v|] eqn:Hv.
  - rewrite (at_index_Some _ _ _ Hv), !io_bind_ret.
    apply lookup_lt_Some in Hv. apply IH; lia.
  - unfold at_index. by rewrite Hv.
Qed.

Lemma row_map_covered keys row :
  length keys ≤ length row →
  row_map keys (mret row) = mret (customMap_of keys row).
Proof.
  intros Hlen. unfold row_map, fold_range, customMap_of.
  rewrite row_map_from_covered by done. by rewrite drop_0.
Qed.

Lemma row_map_short keys row :
  length row < length keys → row_map keys (mret row) = panic.
Proof.
  intros Hlen. unfold row_map, fold_range. apply row_map_from_short; lia.
Qed.

Lemma row_map_at_index (values : list (list string)) keys i row :
  values !! i = Some row →
  row_map keys (at_index values i) = row_map keys (mret row).
Proof. intros Hrow. by rewrite (at_index_Some _ _ _ Hrow). Qed.

Lemma row_map_no_row keys :
  keys ≠ [] → row_map keys (panic : io (list string)) = panic.
Proof. by destruct keys. Qed.

End JSONFacts.

Lemma customMap_from_notin (l : list (string * string)) (m : gmap string string) k :
  k ∉ l.*1 →
  foldl (λ customMap kv, <[kv.1:=kv.2]> customMap) m l !! k = m !! k.
Proof.
  revert m. induction l as [|[k' v'] l IH]; intros m Hk; [done|].
  rewrite fmap_cons, not_elem_of_cons in Hk. destruct Hk as [Hne Hk].
  cbn [foldl]. rewrite IH by done. simpl. by rewrite lookup_insert_ne.
Qed.

Lemma customMap_from_in (l : list (string * string)) (m : gmap string string) k v :
  NoDup l.*1 → (k, v) ∈ l →
  foldl (λ customMap kv, <[kv.1:=kv.2]> customMap) m l !! k = Some v.
Proof.
  revert m. induction l as [|[k' v'] l IH]; intros m Hnd Hin.
  - by apply elem_of_nil in Hin.
  - rewrite fmap_cons in Hnd. apply NoDup_cons in Hnd as [Hk' Hnd].
    cbn [foldl]. apply elem_of_cons in Hin as [[= <- <-]|Hin].
    + rewrite customMap_from_notin by done. simpl. apply lookup_insert_eq.
    + by apply IH.
Qed.

(** X6. The map that the JSON renderers build from a row that has a value
    for every key, the keys being distinct, sends each key to the value at
    the position of its column, and holds no other key. *)
Theorem row_map_lookup (keys row : list string) :
  NoDup keys →
  length keys ≤ length row →
  ∃ m : gmap string string,
    row_map keys (mret row) = mret m ∧
    (∀ i k, keys !! i = Some k → m !! k = row !! i) ∧
    (∀ k, k ∉ keys → m !! k = None).
Proof.
  intros Hnd Hlen. exists (customMap_of keys row).
  split; [by apply row_map_covered|].
  assert ((zip keys row).*1 = keys) as Hfst by by apply fst_zip.
  split.
  - intros i k Hk.
    destruct (lookup_lt_is_Some_2 row i) as [v Hv].
    { apply lookup_lt_Some in Hk. lia. }
    rewrite Hv. apply customMap_from_in; [by rewrite Hfst|].
    apply list_elem_of_lookup. exists i. rewrite lookup_zip_with, Hk. simpl.
    by rewrite Hv.
  - intros k Hk. unfold customMap_of.
    rewrite customMap_from_notin by by rewrite Hfst. done.
Qed.

Lemma row_map_lookup_witness :
  ∃ m : gmap string string,
    row_map ["id"; "size"] (mret ["abc"; "10"]) = mret m ∧
    m !! "size" = Some "10".
Proof.
  destruct (row_map_lookup ["id"; "size"] ["abc"; "10"])
    as (m & Hm & Hlookup & _).
  - refine (bool_decide_unpack _ _). vm_compute. exact I.
  - simpl. lia.
  - exists m. split; [done|]. by apply (Hlookup 1).
Defined.

Section JSONRenderers.

Context `{GoLibrary}.

Lemma multiple_objects_covered keys (rows : list (list string)) i
    (data : list (gmap string string)) :
  Forall (λ row, length keys ≤ length row) rows →
  fold_range_from i rows
    (λ _ row (data : list (gmap string string)),
       dataRow ← row_map keys (mret row); mret (data ++ [dataRow])) data
  = mret (data ++ (customMap_of keys <$> rows)).
Proof.
  revert i data. induction rows as [|row rows IH]; intros i data Hrows.
  - by rewrite app_nil_r.
  - apply Forall_cons in Hrows as [Hrow Hrows]. cbn [fold_range_from].
    rewrite row_map_covered, !io_bind_ret, IH by done.
    by rewrite <-app_assoc.
Qed.

Lemma multiple_objects_short keys (rows : list (list string)) i
    (data : list (gmap string string)) :
  Exists (λ row, length row < length keys) rows →
  fold_range_from i rows
    (λ _ row (data : list (gmap string string)),
       dataRow ← row_map keys (mret row); mret (data ++ [dataRow])) data
  = panic.
Proof.
  revert i data. induction rows as [|row rows IH]; intros i data Hrows.
  - by apply Exists_nil in Hrows.
  - cbn [fold_range_from].
    destruct (decide (length row < length keys)) as [Hshort|Hlong].
    + by rewrite row_map_short.
    + apply Exists_cons in Hrows as [?|Hrows]; [done|].
      rewrite row_map_covered, !io_bind_ret by lia. by apply IH.
Qed.

(** X7. [WriteMultipleObjectsJSON] marshals one map per finalized row, in
    the order of the rows, when every row has a value for every column; it
    panics before anything is printed as soon as one row is shorter than
    the registry of columns. *)
Theorem WriteMultipleObjectsJSON_outcome (ow : OutputWriter) :
  (Forall (λ row, length (Keys ow) ≤ length row) (Values (finishExistingLine ow)) →
   (WriteMultipleObjectsJSON ow).2 =
     print_json
       (json_Marshal_array
          (customMap_of (Keys ow) <$> Values (finishExistingLine ow)))) ∧
  (Exists (λ row, length row < length (Keys ow)) (Values (finishExistingLine ow)) →
   (WriteMultipleObjectsJSON ow).2 = ([], Panic)).
Proof.
  unfold WriteMultipleObjectsJSON. cbn [snd]. rewrite Keys_finishExistingLine.
  unfold fold_range. split; intros Hrows.
  - by rewrite multiple_objects_covered, io_bind_ret.
  - by rewrite multiple_objects_short.
Qed.

(** X8. [WriteSingleObjectJSON] marshals the map of row 0 when row 0 has a
    value for every column; it panics before anything is printed when row 0
    is shorter, or when there are columns and no row; without any column it
    marshals the empty map, whether there is a row or not. *)
Theorem WriteSingleObjectJSON_outcome (ow : OutputWriter) :
  (∀ row,
      Values (finishExistingLine ow) !! 0 = Some row →
      length (Keys ow) ≤ length row →
      (WriteSingleObjectJSON ow).2 =
        print_json (json_Marshal_object (customMap_of (Keys ow) row))) ∧
  (∀ row,
      Values (finishExistingLine ow) !! 0 = Some row →
      length row < length (Keys ow) →
      (WriteSingleObjectJSON ow).2 = ([], Panic)) ∧
  (Values (finishExistingLine ow) = [] → Keys ow ≠ [] →
   (WriteSingleObjectJSON ow).2 = ([], Panic)) ∧
  (Keys ow = [] →
   (WriteSingleObjectJSON ow).2 = print_json (json_Marshal_object ∅)).
Proof.
  unfold WriteSingleObjectJSON. cbn [snd]. rewrite Keys_finishExistingLine.
  split; [|split; [|split]].
  - intros row Hrow Hlen.
    by rewrite (row_map_at_index _ _ _ row), row_map_covered, io_bind_ret.
  - intros row Hrow Hlen.
    by rewrite (row_map_at_index _ _ _ row), row_map_short.
  - intros -> Hkeys. by rewrite row_map_no_row.
  - intros ->. unfold row_map, fold_range. cbn [fold_range_from].
    by rewrite io_bind_ret.
Qed.

End JSONRenderers.

Lemma WriteMultipleObjectsJSON_outcome_witness :
  (WriteMultipleObjectsJSON (H:=Reference.library)
     {| Keys := ["id"]; Labels := ["id"]; Values := [["a"]]; TempValues := ["b"] |}).2
  = print_json
      (@json_Marshal_array Reference.library
         [customMap_of ["id"] ["a"]; customMap_of ["id"] ["b"]]) ∧
  (WriteMultipleObjectsJSON (H:=Reference.library)
     {| Keys := ["id"; "size"]; Labels := ["id"; "size"]; Values := [["a"]];
        TempValues := [""; "10"] |}).2
  = ([], Panic).
Proof.
  split.
  - apply (proj1 (WriteMultipleObjectsJSON_outcome (H:=Reference.library)
                    {| Keys := ["id"]; Labels := ["id"]; Values := [["a"]];
                       TempValues := ["b"] |})).
    repeat constructor.
  - apply (proj2 (WriteMultipleObjectsJSON_outcome (H:=Reference.library)
                    {| Keys := ["id"; "size"]; Labels := ["id"; "size"];
                       Values := [["a"]]; TempValues := [""; "10"] |})).
    apply Exists_cons_hd. simpl. lia.
Defined.

Lemma WriteSingleObjectJSON_outcome_witness :
  (WriteSingleObjectJSON (H:=Reference.library)
     {| Keys := ["id"]; Labels := ["id"]; Values := []; TempValues := ["a"] |}).2
  = print_json (@json_Marshal_object Reference.library (customMap_of ["id"] ["a"])).
Proof.
  apply (proj1 (WriteSingleObjectJSON_outcome (H:=Reference.library)
                  {| Keys := ["id"]; Labels := ["id"]; Values := [];
                     TempValues := ["a"] |}) ["a"]).
  - reflexivity.
  - simpl. lia.
Defined.

(** ** Panics and partial output *)

(** A loop whose body prints a line at each of the first [m] turns and
    panics at the next one. *)
Lemma for_range_lines_then_panic {A : Type} (l : list A) (line : nat → A → string)
    (body : nat → A → io unit) (m : nat) :
  m < length l →
  (∀ i v, l !! i = Some v → i < m → body i v = Println (line i v)) →
  (∀ v, l !! m = Some v → body m v = panic) →
  for_range l body = (imap line (take m l), Panic).
Proof.
  unfold for_range, fold_range.
  enough (∀ k m,
    m < length l →
    (∀ i v, l !! i = Some v → i < m → body (k + i) v = Println (line (k + i) v)) →
    (∀ v, l !! m = Some v → body (k + m) v = panic) →
    fold_range_from k l (λ i v _, body i v) tt
    = (imap (λ i, line (k + i)) (take m l), Panic)) as Hgen.
  { intros Hm Hlines Hpanic. by apply (Hgen 0). }
  clear m. induction l as [|v l IH]; intros k m Hm Hlines Hpanic;
    simpl in Hm; [lia|].
  cbn [fold_range_from]. destruct m as [|m].
  - rewrite <-(Nat.add_0_r k) at 1. by rewrite (Hpanic v eq_refl).
  - rewrite <-(Nat.add_0_r k) at 1.
    rewrite (Hlines 0 v eq_refl) by lia. rewrite io_bind_Println.
    rewrite (IH (S k) m).
    + cbn [take imap fst snd]. do 2 f_equal.
      apply imap_ext. intros i x _. simpl. f_equal. lia.
    + lia.
    + intros i w Hw Hi. replace (S k + i) with (k + S i) by lia.
      apply Hlines; [done|lia].
    + intros w Hw. replace (S k + m) with (k + S m) by lia. by apply Hpanic.
Qed.

Section Panics.

Context `{GoLibrary}.

(** X9. When row 0 of a built accumulator is shorter than the registry of
    columns, [WriteKeyValues] prints the lines of the columns that row 0
    covers, in order, and then panics. *)
Theorem WriteKeyValues_short_row (ow : OutputWriter) (row : list string) :
  built ow →
  Values (finishExistingLine ow) !! 0 = Some row →
  length row < length (Keys ow) →
  (WriteKeyValues ow).2 =
    (zip_with (λ label value,
                 Printf_label_value (longestLabelLength (Labels ow)) label value)
       (Labels ow) row,
     Panic).
Proof.
  intros (Hlabels & _)%built_well_formed Hrow Hlen.
  unfold WriteKeyValues. cbn [snd].
  rewrite Keys_finishExistingLine, Labels_finishExistingLine.
  rewrite (for_range_lines_then_panic _
             (λ i _, Printf_label_value (longestLabelLength (Labels ow))
                       (default "" (Labels ow !! i)) (default "" (row !! i)))
             _ (length row)); [|done| |].
  - f_equal. apply list_eq. intros i.
    rewrite list_lookup_imap, lookup_zip_with, lookup_take.
    destruct (decide (i < length row)) as [Hi|Hi].
    + destruct (lookup_lt_is_Some_2 (Keys ow) i) as [k ->]; [lia|].
      destruct (lookup_lt_is_Some_2 (Labels ow) i) as [label ->]; [lia|].
      destruct (lookup_lt_is_Some_2 row i) as [value ->]; [lia|]. done.
    + rewrite (proj2 (lookup_ge_None row i)) by lia.
      by destruct (Labels ow !! i).
  - intros i k Hk Hi.
    destruct (lookup_lt_is_Some_2 (Labels ow) i) as [label Hlabel]; [lia|].
    destruct (lookup_lt_is_Some_2 row i) as [value Hvalue]; [lia|].
    rewrite (at_index_Some _ _ _ Hrow), io_bind_ret.
    rewrite (at_index_Some _ _ _ Hvalue), io_bind_ret.
    rewrite (at_index_Some _ _ _ Hlabel), io_bind_ret.
    by rewrite Hlabel, Hvalue.
  - intros k Hk. rewrite (at_index_Some _ _ _ Hrow), io_bind_ret.
    unfold at_index. by rewrite (proj2 (lookup_ge_None row (length row))).
Qed.

Lemma WriteCustomOutput_unfold ow fields :
  (WriteCustomOutput ow fields).2 =
    (customMap ← row_map (Keys ow) (at_index (Values (finishExistingLine ow)) 0);
     for_range (Values (finishExistingLine ow))
       (λ _ _, custom_line (sort_Sort_byLen (Keys ow)) customMap fields)).
Proof.
  unfold WriteCustomOutput. cbn [snd Keys Values].
  by rewrite Keys_finishExistingLine.
Qed.

(** X10. [WriteCustomOutput] panics before anything is printed when row 0
    is shorter than the registry of columns, and when there are columns and
    no row: the map of the values is built from row 0 before the loop over
    the rows. *)
Theorem WriteCustomOutput_short_row_0 (ow : OutputWriter) (fields : string) :
  (∀ row,
      Values (finishExistingLine ow) !! 0 = Some row →
      length row < length (Keys ow) →
      (WriteCustomOutput ow fields).2 = ([], Panic)) ∧
  (Values (finishExistingLine ow) = [] → Keys ow ≠ [] →
   (WriteCustomOutput ow fields).2 = ([], Panic)).
Proof.
  rewrite WriteCustomOutput_unfold. split.
  - intros row Hrow Hlen.
    by rewrite (row_map_at_index _ _ _ row), row_map_short.
  - intros -> Hkeys. by rewrite row_map_no_row.
Qed.

Lemma to_placeholders_refused keys k fields :
  k ∈ keys →
  (∀ output, MustCompile_Find k output = None) →
  to_placeholders keys fields = panic.
Proof.
  intros Hk Hrefused. unfold to_placeholders, fold_range. generalize 0.
  revert fields. induction keys as [|name keys IH]; intros fields i.
  - by apply elem_of_nil in Hk.
  - cbn [fold_range_from]. apply elem_of_cons in Hk as [<-|Hk].
    + by rewrite Hrefused.
    + destruct (MustCompile_Find name fields) as [[]|]; [| |done];
        rewrite io_bind_ret; by apply IH.
Qed.

(** X11. The keys are compiled as regular expressions, unescaped: when one
    of the keys is a pattern that does not compile and there is a row (row 0
    having a value for every column), [WriteCustomOutput] panics before
    anything is printed, whatever the template. *)
Theorem WriteCustomOutput_refused_pattern
    (ow : OutputWriter) (fields k : string) (row : list string) :
  k ∈ Keys ow →
  (∀ output, MustCompile_Find k output = None) →
  Values (finishExistingLine ow) !! 0 = Some row →
  length (Keys ow) ≤ length row →
  (WriteCustomOutput ow fields).2 = ([], Panic).
Proof.
  intros Hk Hrefused Hrow Hlen. rewrite WriteCustomOutput_unfold.
  rewrite (row_map_at_index _ _ _ row), row_map_covered, io_bind_ret by done.
  destruct (Values (finishExistingLine ow)) as [|row' rows]; [done|].
  unfold for_range, fold_range. cbn [fold_range_from]. unfold custom_line.
  rewrite (to_placeholders_refused _ k); [done| |done].
  by rewrite (sort_Sort_byLen_perm (Keys ow)).
Qed.

End Panics.

Lemma WriteKeyValues_short_row_witness :
  (WriteKeyValues (H:=Reference.library)
     {| Keys := ["ID"; "NAME"]; Labels := ["ID"; "Name"]; Values := [["1"]];
        TempValues := [""; "eve"] |}).2
  = (["  ID : 1"], Panic).
Proof.
  refine (WriteKeyValues_short_row (H:=Reference.library) _ ["1"] _ _ _).
  - by exists [CallAppend "ID" "1" "ID"; CallStartLine;
               CallAppend "NAME" "eve" "Name"].
  - reflexivity.
  - simpl. lia.
Defined.

Lemma WriteCustomOutput_short_row_0_witness :
  (WriteCustomOutput (H:=Reference.library)
     {| Keys := ["ID"; "NAME"]; Labels := ["ID"; "Name"]; Values := [["1"]];
        TempValues := [""; "eve"] |} "ID").2
  = ([], Panic).
Proof.
  refine (proj1 (WriteCustomOutput_short_row_0 (H:=Reference.library) _ _)
            ["1"] _ _).
  - reflexivity.
  - simpl. lia.
Defined.

Lemma WriteCustomOutput_refused_pattern_witness :
  (WriteCustomOutput (H:=Reference.library)
     {| Keys := ["("]; Labels := ["("]; Values := []; TempValues := ["1"] |}
     "a ( b").2
  = ([], Panic).
Proof.
  refine (WriteCustomOutput_refused_pattern (H:=Reference.library)
            _ _ "(" ["1"] _ _ _ _).
  - by apply list_elem_of_singleton.
  - reflexivity.
  - reflexivity.
  - simpl. lia.
Defined.

(** ** More on the custom-template renderer *)

Lemma silent_bind {A B : Type} (m : io A) (f : A → io B) :
  silent m → (∀ a, silent (f a)) → silent (m ≫= f).
Proof.
  destruct m as [out [a| |]]; unfold silent; simpl; intros -> Hf; try done.
  specialize (Hf a). by destruct (f a) as [out' r]; simplify_eq/=.
Qed.

Lemma io_bind_Ok {A B : Type} (a : A) (f : A → io B) :
  ((([], Ok a) : io A) ≫= f) = f a.
Proof. apply io_bind_ret. Qed.

Lemma silent_at_index {A : Type} (l : list A) i : silent (at_index l i).
Proof. unfold at_index. by destruct (l !! i). Qed.

Lemma silent_fold_range_from {A St : Type} i (l : list A)
    (body : nat → A → St → io St) acc :
  (∀ i v acc, silent (body i v acc)) → silent (fold_range_from i l body acc).
Proof.
  intros Hbody. revert i acc. induction l as [|v l IH]; intros i acc; [done|].
  cbn [fold_range_from]. apply silent_bind; [done|]. intros a. apply IH.
Qed.



Section CustomOutputMore.

Context `{GoLibrary}.


Lemma silent_to_placeholders keys fields : silent (to_placeholders keys fields).
Proof.
  apply silent_fold_range_from. intros i name output.
  by destruct (MustCompile_Find name output) as [[]|].
Qed.

Lemma silent_to_values keys customMap output :
  silent (to_values keys customMap output).
Proof.
  apply silent_fold_range_from. intros i name out.
  by destruct (Contains out (placeholder i)).
Qed.

Lemma silent_row_map keys (row : io (list string)) :
  silent row → silent (row_map keys row).
Proof.
  intros Hrow. apply silent_fold_range_from. intros i k data.
  apply silent_bind; [done|]. intros r.
  apply silent_bind; [apply silent_at_index|done].
Qed.

(** One line, for one row: it is printed last, if at all. *)
Lemma custom_line_cases keys customMap fields :
  (∃ line, custom_line keys customMap fields = ([line], Ok tt)) ∨
  (∃ r, custom_line keys customMap fields = ([], r) ∧ r ≠ Ok tt).
Proof.
  unfold custom_line.
  pose proof (silent_to_placeholders keys fields) as Hp.
  destruct (to_placeholders keys fields) as [out [output| |]];
    unfold silent in Hp; simpl in Hp; subst out.
  - pose proof (silent_to_values keys customMap output) as Hv.
    destruct (to_values keys customMap output) as [out [output'| |]] eqn:Hvalues;
      unfold silent in Hv; simpl in Hv; subst out.
    + left. exists (unescape output'). simpl. by rewrite Hvalues.
    + right. exists Panic. simpl. by rewrite Hvalues.
    + right. exists (Exit code). simpl. by rewrite Hvalues.
  - right. by exists Panic.
  - right. by exists (Exit code).
Qed.

(** X13. Whenever [WriteCustomOutput] ends normally, it has printed one
    line per finalized row, and all these lines are the same. *)
Theorem WriteCustomOutput_same_line_for_every_row
    (ow : OutputWriter) (fields : string) (out : list string) :
  (WriteCustomOutput ow fields).2 = (out, Ok tt) →
  ∃ line, out = replicate (length (Values (finishExistingLine ow))) line.
Proof.
  rewrite WriteCustomOutput_unfold.
  pose proof (silent_row_map (Keys ow)
                (at_index (Values (finishExistingLine ow)) 0)
                (silent_at_index _ _)) as Hmap.
  destruct (row_map _ _) as [o [customMap| |]];
    unfold silent in Hmap; simpl in Hmap; subst o; [|done..].
  rewrite io_bind_Ok.
  destruct (Values (finishExistingLine ow)) as [|row rows] eqn:Hrows.
  - intros [= <-]. by exists "".
  - destruct (custom_line_cases (sort_Sort_byLen (Keys ow)) customMap fields)
      as [[line Hline]|(r & Hline & Hr)].
    + rewrite (for_range_constant _ _ [line]) by done.
      rewrite concat_replicate_singleton. intros [= <-]. by exists line.
    + unfold for_range, fold_range. cbn [fold_range_from]. rewrite Hline.
      by destruct r as [[]| |].
Qed.

(** X14. Every renderer leaves [Labels] and [TempValues] as they are, keeps
    the finalized rows as a prefix of the new ones, and keeps the keys up to
    their order (the four renderers other than [WriteCustomOutput] keep the
    order too); an accumulator whose columns are aligned stays so. *)
Theorem render_keeps_columns (r : renderer) (ow : OutputWriter) :
  Keys (render r ow).1 ≡ₚ Keys ow ∧
  ((∀ fields, r ≠ CustomOutput fields) → Keys (render r ow).1 = Keys ow) ∧
  Labels (render r ow).1 = Labels ow ∧
  TempValues (render r ow).1 = TempValues ow ∧
  Values ow `prefix_of` Values (render r ow).1 ∧
  (well_formed ow → well_formed (render r ow).1).
Proof.
  assert (Keys (render r ow).1 ≡ₚ Keys ow) as Hperm.
  { rewrite Keys_render. destruct r; try done. apply sort_Sort_byLen_perm. }
  split; [done|]. split.
  { intros Hr. rewrite Keys_render. destruct r; try done. by destruct (Hr fields). }
  split; [apply Labels_render|]. split; [apply TempValues_render|]. split.
  - rewrite Values_render. unfold finishExistingLine. case_decide; [|done].
    by apply prefix_app_r.
  - intros (Hl & Ht & Hnd). unfold well_formed.
    rewrite Labels_render, TempValues_render, Hperm. done.
Qed.

End CustomOutputMore.


Lemma WriteCustomOutput_same_line_for_every_row_witness :
  ∃ line,
    ["1"; "1"] =
    replicate
      (length (Values (finishExistingLine
                         {| Keys := ["ID"]; Labels := ["ID"]; Values := [["1"]];
                            TempValues := ["2"] |})))
      line.
Proof.
  apply (WriteCustomOutput_same_line_for_every_row (H:=Reference.library) _ "ID").
  reflexivity.
Defined.

Lemma render_keeps_columns_witness :
  well_formed (render (H:=Reference.library) (CustomOutput "ID") ID_BUILDID).1.
Proof.
  apply (render_keeps_columns (H:=Reference.library)).
  repeat split. refine (bool_decide_unpack _ _). vm_compute. exact I.
Defined.

(** ** [WriteSubheader], [replaceNth] and the escapes *)

(** X15. For a label of 76 bytes or more [WriteSubheader] panics, the count
    of dashes being negative, and prints nothing. *)
Theorem WriteSubheader_long_label (ow : OutputWriter) (label : string) :
  76 ≤ String.length label → WriteSubheader ow label = ([], Panic).
Proof.
  intros Hlen. unfold WriteSubheader, strings_Repeat.
  assert (((72 - Z.of_nat (String.length label) + 2) `quot` 2 < 0)%Z) as Hneg.
  { replace (72 - Z.of_nat (String.length label) + 2)%Z
      with (- (Z.of_nat (String.length label) - 74))%Z by lia.
    rewrite Z.quot_opp_l by lia. rewrite Z.quot_div_nonneg by lia.
    assert (1 ≤ (Z.of_nat (String.length label) - 74) `div` 2)%Z; [|lia].
    apply Z.div_le_lower_bound; lia. }
  apply Z.ltb_lt in Hneg. by rewrite Hneg.
Qed.

Lemma WriteSubheader_long_label_witness :
  WriteSubheader NewOutputWriter (Repeat "subheader " 8) = ([], Panic).
Proof. apply WriteSubheader_long_label. vm_compute. lia. Defined.

Lemma slice_to_from s i : slice_to i s +:+ slice_from i s = s.
Proof.
  revert s. induction i as [|i IH]; intros [|c s]; simpl; try done.
  by rewrite app_String, IH.
Qed.

Lemma slice_to_plus s i x :
  slice_to (i + x) s = slice_to i s +:+ slice_to x (slice_from i s).
Proof.
  revert s. induction i as [|i IH]; intros s.
  - by rewrite slice_from_0.
  - destruct s as [|c s]; simpl; [by destruct x|]. by rewrite IH.
Qed.

Lemma slice_from_plus s i x :
  slice_from (i + x) s = slice_from x (slice_from i s).
Proof.
  revert s. induction i as [|i IH]; intros s.
  - by rewrite slice_from_0.
  - destruct s as [|c s]; simpl; [by destruct x|]. by rewrite IH.
Qed.

(** The loop of [replaceNth] that goes on from offset [i] leaves the first
    [i] bytes as they are and works on the rest. *)
Lemma replaceNth_loop_offset k s old new i :
  replaceNth_loop k s old new i =
  slice_to i s +:+ replaceNth_loop k (slice_from i s) old new 0.
Proof.
  revert s i. induction k as [|k IH]; intros s i.
  - simpl. by rewrite slice_to_from.
  - cbn [replaceNth_loop]. rewrite slice_from_0.
    destruct (Index (slice_from i s) old) as [x|]; [|by rewrite slice_to_from].
    destruct k as [|k].
    + rewrite slice_to_plus, app_assoc'. simpl (0 + x).
      by rewrite <-Nat.add_assoc, slice_from_plus.
    + rewrite (IH s (i + x + String.length old)), (IH (slice_from i s) (0 + x + String.length old)).
      rewrite <-app_assoc'. simpl (0 + x).
      by rewrite <-Nat.add_assoc, slice_to_plus, slice_from_plus.
Qed.

(** X16. [replaceNth] returns [s] as it is when [n] is zero or negative, and
    when [old] does not occur in [s], whatever [n]. *)
Theorem replaceNth_unchanged (s old new : string) (n : Z) :
  (n ≤ 0)%Z ∨ Index s old = None → replaceNth s old new n = s.
Proof.
  unfold replaceNth. intros [Hn|Hi].
  - by replace (Z.to_nat n) with 0 by lia.
  - destruct (Z.to_nat n) as [|k]; [done|]. cbn [replaceNth_loop].
    by rewrite slice_from_0, Hi.
Qed.

Lemma replaceNth_unchanged_witness :
  replaceNth "id=ID" "ID" "42" 0 = "id=ID" ∧ replaceNth "id=ID" "NAME" "42" 3 = "id=ID".
Proof.
  split; apply replaceNth_unchanged; [left; lia|right; reflexivity].
Defined.

Lemma replaceNth_loop_SS k s old new i :
  replaceNth_loop (S (S k)) s old new i =
  match Index (slice_from i s) old with
  | None => s
  | Some x => replaceNth_loop (S k) s old new (i + x + String.length old)
  end.
Proof. done. Qed.

(** X17. Occurrences are counted from the left without overlap: for
    [n >= 1], the occurrence of rank [n + 1] in [s] is the occurrence of
    rank [n] in what follows the leftmost occurrence. *)
Theorem replaceNth_next_occurrence (s old new pre rest : string) (n : Z) :
  (1 ≤ n)%Z →
  s = pre +:+ old +:+ rest →
  Index s old = Some (String.length pre) →
  replaceNth s old new (n + 1) = pre +:+ old +:+ replaceNth rest old new n.
Proof.
  intros Hn -> Hi. unfold replaceNth.
  replace (Z.to_nat (n + 1)) with (S (Z.to_nat n)) by lia.
  destruct (Z.to_nat n) as [|k] eqn:Hk; [lia|].
  rewrite replaceNth_loop_SS, slice_from_0, Hi, replaceNth_loop_offset.
  replace (0 + String.length pre + String.length old)
    with (String.length (pre +:+ old)) by (rewrite length_append; lia).
  rewrite <-(app_assoc' pre old rest), slice_to_app, slice_from_app.
  by rewrite app_assoc'.
Qed.

Lemma replaceNth_next_occurrence_witness :
  replaceNth "a-b-c-d" "-" "+" 3 = "a" +:+ "-" +:+ replaceNth "b-c-d" "-" "+" 2.
Proof.
  apply (replaceNth_next_occurrence "a-b-c-d" "-" "+" "a" "b-c-d" 2);
    [lia|reflexivity|reflexivity].
Defined.

Lemma ReplaceAll_go_fresh a c old new rest :
  Contains a (String c "") = false →
  ReplaceAll_go 0 (a +:+ rest) (String c old) new
  = a +:+ ReplaceAll_go 0 rest (String c old) new.
Proof.
  induction a as [|b a IH]; intros Ha; [done|].
  rewrite Contains_char_cons in Ha. apply orb_false_elim in Ha as [Hb Ha].
  rewrite !app_String. cbn [ReplaceAll_go HasPrefix]. rewrite Hb.
  by rewrite IH.
Qed.

(** X18. The conversion of the escapes leaves a text without backslash as it
    is. *)
Theorem unescape_no_backslash (output : string) :
  Contains output "\" = false → unescape output = output.
Proof.
  intros Hout. unfold unescape, ReplaceAll.
  rewrite <-(app_empty_r output), ReplaceAll_go_fresh by done.
  rewrite ReplaceAll_go_fresh by done. done.
Qed.

Lemma unescape_no_backslash_witness : unescape "id=42 name=foo" = "id=42 name=foo".
Proof. by apply unescape_no_backslash. Defined.

(** X19. The leftmost escape: after a stretch without backslash, the two
    characters backslash-n become a newline and the two characters
    backslash-t a tab, and the conversion goes on with what follows. *)
Theorem unescape_leftmost_escape (a b : string) :
  Contains a "\" = false →
  unescape (a +:+ "\n" +:+ b) = a +:+ newline +:+ unescape b ∧
  unescape (a +:+ "\t" +:+ b) = a +:+ tab +:+ unescape b.
Proof.
  intros Ha. unfold unescape, ReplaceAll. split.
  - rewrite ReplaceAll_go_fresh by done.
    change ("\n" +:+ b) with (String "\" (String "n" b)).
    cbn [ReplaceAll_go HasPrefix Ascii.eqb Bool.eqb].
    rewrite ReplaceAll_go_fresh by done.
    cbn [ReplaceAll_go HasPrefix Ascii.eqb Bool.eqb String.length Nat.sub].
    by rewrite HasPrefix_empty.
  - rewrite ReplaceAll_go_fresh by done.
    change ("\t" +:+ b) with (String "\" (String "t" b)).
    cbn [ReplaceAll_go HasPrefix Ascii.eqb Bool.eqb String.length Nat.sub].
    destruct b as [|c b]; rewrite ?HasPrefix_empty.
    + rewrite app_empty_r. rewrite <-(app_empty_r (a +:+ tab)), app_assoc'.
      rewrite ReplaceAll_go_fresh by done. done.
    + cbn [ReplaceAll_go]. rewrite ReplaceAll_go_fresh by done. done.
Qed.

Lemma unescape_leftmost_escape_witness :
  unescape ("id=ID" +:+ "\n" +:+ "name=NAME\t") = "id=ID" +:+ newline +:+ unescape "name=NAME\t".
Proof. by apply unescape_leftmost_escape. Defined.

(** ** [byLen] *)

(** X20. On the indices of the slice, [Less(i, j)] holds exactly when the
    element at [i] is longer than the one at [j]; it is irreflexive and
    transitive, and so is being of the same length: the strict weak order
    that [sort.Sort] needs. *)
Theorem byLen_Less_strict_weak_order (a : list string) (i j k : nat) :
  i < byLen_Len a → j < byLen_Len a → k < byLen_Len a →
  (byLen_Less a i j = true ↔
   ∃ x y, a !! i = Some x ∧ a !! j = Some y ∧ String.length y < String.length x) ∧
  byLen_Less a i i = false ∧
  (byLen_Less a i j = true → byLen_Less a j k = true → byLen_Less a i k = true) ∧
  (byLen_Less a i j = false → byLen_Less a j i = false →
   byLen_Less a j k = false → byLen_Less a k j = false →
   byLen_Less a i k = false ∧ byLen_Less a k i = false).
Proof.
  unfold byLen_Len, byLen_Less. intros Hi Hj Hk.
  destruct (lookup_lt_is_Some_2 a i Hi) as [x ->].
  destruct (lookup_lt_is_Some_2 a j Hj) as [y ->].
  destruct (lookup_lt_is_Some_2 a k Hk) as [z ->].
  split; [|split; [|split]].
  - split.
    + intros Hlt%Nat.ltb_lt. by exists x, y.
    + intros (x' & y' & [= <-] & [= <-] & Hlt). by apply Nat.ltb_lt.
  - apply Nat.ltb_irrefl.
  - intros Hxy%Nat.ltb_lt Hyz%Nat.ltb_lt. apply Nat.ltb_lt. lia.
  - intros Hxy%Nat.ltb_ge Hyx%Nat.ltb_ge Hyz%Nat.ltb_ge Hzy%Nat.ltb_ge.
    split; apply Nat.ltb_ge; lia.
Qed.

Lemma byLen_Less_strict_weak_order_witness :
  byLen_Less ["ID"; "BUILDID"; "NAME"] 1 0 = true.
Proof.
  apply (byLen_Less_strict_weak_order ["ID"; "BUILDID"; "NAME"] 1 2 0);
    (simpl; lia) || reflexivity.
Defined.

